(** * ThrashTracker: sequencing and voice-management core

    A shallow embedding of the TypeScript sources
    [src/audio/AudioEngine.ts], [src/midi/MidiController.ts],
    [src/components/Sequencer.tsx] and [src/App.tsx], followed by the
    properties of the engine that the specification states.

    Conventions of the embedding:
    - JavaScript numbers that the program only uses as integers (MIDI notes,
      stored step velocities, track indices, voice cursors, BPM) are [Z];
      array positions produced by [map]/[forEach] are [nat];
    - the quantities the program computes in floating point (step duration,
      durations in seconds, velocities) are IEEE doubles, Rocq's primitive
      [float], with the program's own operations on them; the oscillator
      frequency is kept symbolic as the MIDI note it is computed from;
    - the synthesis backend and the transport are Tone.js, which is not part
      of the sources: whether a [triggerAttackRelease] call returns or throws
      is given with each call, and the transport's one check (it refuses a
      negative tempo) is stated where it is used;
    - an ES [Map] is a stdpp [gmap]; an array is a [list];
    - mutation is explicit state passing; what a method does to the outside
      world (a voice being triggered, the pattern callback being invoked) is
      returned as a list of events, oldest first; an [async] method runs to
      completion as one step, and a React state updater runs once per call;
    - [undefined]/[NaN] results are [None]; a JavaScript [TypeError] is [None]
      at the level of the whole operation. *)

From Stdlib Require Import ZArith String Ascii HexadecimalString.
From Stdlib Require Import PrimFloat SpecFloat FloatOps.
From stdpp Require Import gmap strings list fin_maps.

Local Open Scope Z_scope.

(** ** The fragment of JavaScript the sources rely on *)

Module Js.

(** [x % y] on integers: the sign follows the dividend, and [x % 0] is
    [NaN]. *)
Definition rem (x y : Z) : option Z :=
  if decide (y = 0) then None else Some (Z.rem x y).

(** [a[i]] for a possibly-[NaN], possibly-negative index: [undefined]
    outside the array. *)
Definition index {A} (a : list A) (i : option Z) : option A :=
  match i with
  | Some i => if decide (0 ≤ i) then a !! Z.to_nat i else None
  | None => None
  end.

(** [Math.floor(x / y)] for integers [x] and a positive integer [y]. *)
Definition floorDiv (x y : Z) : Z := x `div` y.

(** The double of an integer-valued number: the nearest one, as for a
    numeric literal. *)
Definition number (z : Z) : float :=
  SF2Prim (binary_normalize prec emax z 0 false).

(** [Math.floor(x)] on doubles: zeros, infinities, [NaN] and doubles
    without a fractional part are returned as they are. *)
Definition floor (x : float) : float :=
  match Prim2SF x with
  | S754_finite s m e =>
      if 0 <=? e then x
      else number (Z.shiftr (if s then Z.neg m else Z.pos m) (- e))
  | _ => x
  end.

(** [n.toString(16)] for an integer [n]. *)
Definition toString16 (n : Z) : string :=
  NilZero.string_of_int (Z.to_hex_int n).

Definition upperChar (c : ascii) : ascii :=
  let n := nat_of_ascii c in
  if decide (97 ≤ n ≤ 122)%nat then ascii_of_nat (n - 32) else c.

(** [s.toUpperCase()] on ASCII text. *)
Fixpoint toUpperCase (s : string) : string :=
  match s with
  | EmptyString => EmptyString
  | String c rest => String (upperChar c) (toUpperCase rest)
  end.

Fixpoint repeatChar (n : nat) (c : ascii) : string :=
  match n with
  | O => EmptyString
  | S n' => String c (repeatChar n' c)
  end.

(** [s.padStart(target, c)] for a one-character pad string. *)
Definition padStart (target : nat) (c : ascii) (s : string) : string :=
  (repeatChar (target - String.length s) c +:+ s)%string.

End Js.

(** The hexadecimal tag of pattern number [i]:
    [`000x${i.toString(16).toUpperCase().padStart(2, '0')}`], the expression
    shared by [Sequencer.tsx] (bank initialisation) and
    [MidiController.handleControlChange]. *)
Definition hexId (i : Z) : string :=
  ("000x" +:+ Js.padStart 2 "0" (Js.toUpperCase (Js.toString16 i)))%string.

(** ** AudioEngine.ts *)

Module AudioEngine.

Inductive SynthType := fm | subtractive | drum | sampler.

(** A synthesis voice object.  Voices are opaque to the core; a handle
    records which [new Tone.*] expression created it: the class, the run of
    [initialize] (or of [loadSample]) that allocated it, the track and,
    for the polyphonic kinds, the position in the track's voice array. *)
Inductive Voice :=
| FMSynth (epoch : nat) (track : Z) (slot : nat)
| Synth (epoch : nat) (track : Z) (slot : nat)
| MembraneSynth (epoch : nat) (track : Z)
| NoiseSynth (epoch : nat) (track : Z)
| Sampler (epoch : nat) (track : Z).

(** First argument of [triggerAttackRelease]. *)
Inductive Pitch :=
| Frequency (midi : Z)   (* Tone.Frequency(note, 'midi').toFrequency() *)
| Midi (note : Z)        (* the note number itself (sampler) *)
| Unpitched.             (* NoiseSynth takes no pitch *)

(** One call
    [voice.triggerAttackRelease(pitch, seconds, undefined, velocity)]. *)
Record Event := TriggerAttackRelease {
  ev_voice : Voice;
  ev_pitch : Pitch;
  ev_seconds : float;
  ev_velocity : float
}.

(** The engine object, together with the part of the global
    [Tone.Transport] that it drives. *)
Record t := mk {
  masterVolume : option nat;
  initialized : bool;
  fmSynths : gmap Z (list Voice);
  subtractiveSynths : gmap Z (list Voice);
  drumSynths : gmap Z Voice;
  samplers : gmap Z Voice;
  voicePool : gmap Z Z;
  maxVoices : Z;
  maxVoicesPerTrack : nat;
  epoch : nat;
  transport_bpm : Z;
  transport_started : bool
}.

Definition set_voicePool (vp : gmap Z Z) (e : t) : t :=
  mk (masterVolume e) (initialized e) (fmSynths e) (subtractiveSynths e)
     (drumSynths e) (samplers e) vp (maxVoices e) (maxVoicesPerTrack e)
     (epoch e) (transport_bpm e) (transport_started e).

Definition set_samplers (s : gmap Z Voice) (ep : nat) (e : t) : t :=
  mk (masterVolume e) (initialized e) (fmSynths e) (subtractiveSynths e)
     (drumSynths e) s (voicePool e) (maxVoices e) (maxVoicesPerTrack e)
     ep (transport_bpm e) (transport_started e).

Definition set_initialized (b : bool) (e : t) : t :=
  mk (masterVolume e) b (fmSynths e) (subtractiveSynths e)
     (drumSynths e) (samplers e) (voicePool e) (maxVoices e)
     (maxVoicesPerTrack e) (epoch e) (transport_bpm e) (transport_started e).

Definition set_transport (bpm : Z) (started : bool) (e : t) : t :=
  mk (masterVolume e) (initialized e) (fmSynths e) (subtractiveSynths e)
     (drumSynths e) (samplers e) (voicePool e) (maxVoices e)
     (maxVoicesPerTrack e) (epoch e) bpm started.

(** The track numbers the constructor and [initialize] loop over:
    [for (let i = 0; i < 8; i++)]. *)
Definition tracks : list Z := Z.of_nat <$> seq 0 8.

(** [new AudioEngine()]: every track's cursor is 0, nothing else exists.
    [Tone.Transport] starts stopped at Tone's default of 120 BPM. *)
Definition constructor : t :=
  {| masterVolume := None;
     initialized := false;
     fmSynths := ∅;
     subtractiveSynths := ∅;
     drumSynths := ∅;
     samplers := ∅;
     voicePool := foldl (fun m i => <[i := 0]> m) ∅ tracks;
     maxVoices := 16;
     maxVoicesPerTrack := 4;
     epoch := 0;
     transport_bpm := 120;
     transport_started := false |}.

(** The body of the per-track loop of [initialize]. *)
Definition installTrack (ep n : nat) (e : t) (track : Z) : t :=
  mk (masterVolume e) (initialized e)
     (<[track := FMSynth ep track <$> seq 0 n]> (fmSynths e))
     (<[track := Synth ep track <$> seq 0 n]> (subtractiveSynths e))
     (<[track := if decide (track < 4) then MembraneSynth ep track
                 else NoiseSynth ep track]> (drumSynths e))
     (samplers e) (voicePool e) (maxVoices e) (maxVoicesPerTrack e)
     (epoch e) (transport_bpm e) (transport_started e).

(** [initialize()].  [toneStart] tells whether [await Tone.start()]
    resolves; when it rejects the error is rethrown before anything has
    been built, so the engine is as it was. *)
Definition initialize (toneStart : bool) (e : t) : option t :=
  if initialized e then Some e
  else if toneStart then
    let ep := epoch e in
    let e1 :=
      mk (Some ep) (initialized e) (fmSynths e) (subtractiveSynths e)
         (drumSynths e) (samplers e) (voicePool e) (maxVoices e)
         (maxVoicesPerTrack e) (S ep) (transport_bpm e)
         (transport_started e) in
    let e2 := foldl (installTrack ep (maxVoicesPerTrack e)) e1 tracks in
    Some (set_initialized true e2)
  else None.

(** [Tone.Transport.bpm.value = bpm].  Modelled from Tone.js, which is not
    part of the sources: the setter checks the range of the tick rate it
    derives from the tempo, and a negative tempo is a [RangeError] that
    leaves the transport as it was; [None] is that error. *)
Definition setTempo (bpm : Z) (e : t) : option t :=
  if decide (bpm < 0) then None
  else Some (set_transport bpm (transport_started e) e).

(** [start(bpm)]: the engine afterwards, and whether the promise resolved.
    It rejects when [initialize] fails, with nothing changed, and when the
    tempo is refused, with the engine initialised by then and the transport
    untouched. *)
Definition start (toneStart : bool) (bpm : Z) (e : t) : t * bool :=
  match (if initialized e then Some e else initialize toneStart e) with
  | None => (e, false)
  | Some e1 =>
      match setTempo bpm e1 with
      | None => (e1, false)
      | Some e2 => (set_transport (transport_bpm e2) true e2, true)
      end
  end.

(** [stop()]. *)
Definition stop (e : t) : t := set_transport (transport_bpm e) false e.

(** [setBpm(bpm)]: the engine afterwards, and whether the call returned
    (it throws what the tempo setter throws). *)
Definition setBpm (bpm : Z) (e : t) : t * bool :=
  match setTempo bpm e with
  | None => (e, false)
  | Some e' => (e', true)
  end.

Definition default_duration : float := 500.
Definition default_synthType : SynthType := fm.

(** The two polyphonic cases of [triggerNote] have the same body up to
    the voice table they read.  [returns] tells whether the call
    [voice.triggerAttackRelease(...)] returns: when it throws, the [catch]
    of [triggerNote] logs the error and the cursor is not written. *)
Definition triggerPoly (table : gmap Z (list Voice)) (e : t)
    (note : Z) (seconds normalizedVelocity : float) (track : Z)
    (returns : bool) : t * list Event :=
  let voices := default [] (table !! track) in
  let voiceIndex :=
    Js.rem (default 0 (voicePool e !! track)) (Z.of_nat (length voices)) in
  match Js.index voices voiceIndex, voiceIndex with
  | Some voice, Some i =>
      (if returns then set_voicePool (<[track := i + 1]> (voicePool e)) e
       else e,
       [TriggerAttackRelease voice (Frequency note) seconds
          normalizedVelocity])
  | _, _ => (e, [])
  end.

(** [triggerNote(note, velocity, track, duration, synthType)].  The events
    are the backend calls made; [returns] tells whether the one call this
    makes, if any, returns or throws into the [catch]. *)
Definition triggerNote (e : t) (note : Z) (velocity : float) (track : Z)
    (duration : float) (synthType : SynthType) (returns : bool)
  : t * list Event :=
  if negb (initialized e) then (e, [])
  else
    let normalizedVelocity := PrimFloat.div velocity 127 in
    let seconds := PrimFloat.div duration 1000 in
    match synthType with
    | fm =>
        triggerPoly (fmSynths e) e note seconds normalizedVelocity track
          returns
    | subtractive =>
        triggerPoly (subtractiveSynths e) e note seconds normalizedVelocity
          track returns
    | drum =>
        match drumSynths e !! track with
        | Some (MembraneSynth _ _ as v) =>
            (e, [TriggerAttackRelease v (Frequency note) seconds
                   normalizedVelocity])
        | Some (NoiseSynth _ _ as v) =>
            (e, [TriggerAttackRelease v Unpitched seconds
                   normalizedVelocity])
        | _ => (e, [])
        end
    | sampler =>
        match samplers e !! track with
        | Some v =>
            (e, [TriggerAttackRelease v (Midi note) seconds
                   normalizedVelocity])
        | None => (e, [])
        end
    end.

(** [loadSample(track, url)]: installs a fresh sampler for the track. *)
Definition loadSample (track : Z) (e : t) : t :=
  if negb (initialized e) then e
  else
    set_samplers (<[track := Sampler (epoch e) track]> (samplers e))
      (S (epoch e)) e.

(** [cleanup()]: stops the transport and disposes the voices; the tables
    keep their (disposed) entries and the cursors are not reset. *)
Definition cleanup (e : t) : t :=
  let e1 := stop e in
  mk (masterVolume e1) false (fmSynths e1) (subtractiveSynths e1)
     (drumSynths e1) (samplers e1) (voicePool e1) (maxVoices e1)
     (maxVoicesPerTrack e1) (epoch e1) (transport_bpm e1)
     (transport_started e1).

Definition isInitialized (e : t) : bool := initialized e.

(** A call of [triggerNote], as data, with the outcome of the backend
    call it leads to. *)
Record Call := mkCall {
  c_note : Z;
  c_velocity : float;
  c_track : Z;
  c_duration : float;
  c_synthType : SynthType;
  c_returns : bool
}.

Definition perform (e : t) (c : Call) : t * list Event :=
  triggerNote e (c_note c) (c_velocity c) (c_track c) (c_duration c)
    (c_synthType c) (c_returns c).

(** A sequence of calls, one after the other on the same engine. *)
Fixpoint performAll (e : t) (cs : list Call) : t * list Event :=
  match cs with
  | [] => (e, [])
  | c :: cs' =>
      let '(e1, evs1) := perform e c in
      let '(e2, evs2) := performAll e1 cs' in
      (e2, evs1 ++ evs2)
  end.

(** The engine of a running application: constructed, then initialised
    once with a backend that starts. *)
Definition ready : t := default constructor (initialize true constructor).

(** The kinds whose case of [triggerNote] reads and writes the cursor. *)
Definition isMelodic (k : SynthType) : bool :=
  match k with
  | fm | subtractive => true
  | drum | sampler => false
  end.

(** How many calls of a sequence are melodic triggers on [track] whose
    backend call returns. *)
Definition melodicCount (track : Z) (cs : list Call) : nat :=
  length
    (filter (fun c => c_track c = track
                      ∧ isMelodic (c_synthType c) = true
                      ∧ c_returns c = true)
       cs).

(** How many calls of a sequence lead to a backend call that returns. *)
Definition returnedCount (cs : list Call) : nat :=
  length (filter (fun c => c_returns c = true) cs).

(** The voice table the case of a melodic kind reads. *)
Definition polyTable (k : SynthType) (e : t) : gmap Z (list Voice) :=
  match k with
  | fm => fmSynths e
  | subtractive => subtractiveSynths e
  | drum | sampler => ∅
  end.

(** The cursor update of a melodic trigger on a pool of four voices. *)
Definition advance (c : Z) : Z := c `mod` 4 + 1.

(** The handles of the voices triggered, in order. *)
Definition voicesOf (evs : list Event) : list Voice := ev_voice <$> evs.

End AudioEngine.

(** ** MidiController.ts *)

Module MidiController.

(** The pattern-change callback is opaque to the controller; a handle
    names the function that was registered. *)
Definition Callback := nat.

(** One call [patternCallback(pattern)]. *)
Record Invocation := Invoke { inv_callback : Callback; inv_pattern : string }.

(** [audioEngine] records whether the field is non-null: the engine object
    itself is shared with the application and is passed to the handlers
    explicitly. *)
Record t := mk {
  audioEngine : bool;
  initialized : bool;
  connected : bool;
  currentPattern : string;
  patternCallback : option Callback
}.

Definition PATTERN_CC_START : Z := 0.
Definition PATTERN_CC_END : Z := 255.

Definition constructor : t :=
  {| audioEngine := false;
     initialized := false;
     connected := false;
     currentPattern := "000x01";
     patternCallback := None |}.

(** [initialize(audioEngine, patternCallback)].  [webMidi] tells whether
    [WebMidi.enable] succeeds and [inputs] is [WebMidi.inputs.length] at
    that moment; the first input, if any, is connected. *)
Definition initialize (webMidi : bool) (inputs : nat)
    (cb : option Callback) (m : t) : t :=
  if initialized m then m
  else if webMidi then
    mk true true (if decide (0 < inputs)%nat then true else connected m)
       (currentPattern m) cb
  else mk true (initialized m) (connected m) (currentPattern m) cb.

(** The ['connected'] listener, for a port of type input. *)
Definition onConnected (m : t) : t :=
  if negb (connected m) then
    mk (audioEngine m) (initialized m) true (currentPattern m)
       (patternCallback m)
  else m.

(** The ['disconnected'] listener; [current] tells whether the port is the
    one [getCurrentInputName] names. *)
Definition onDisconnected (current : bool) (m : t) : t :=
  if current then
    mk (audioEngine m) (initialized m) false (currentPattern m)
       (patternCallback m)
  else m.

(** [Math.floor((note - 36) / 12) % 8]. *)
Definition noteToTrack (note : Z) : Z :=
  Z.rem (Js.floorDiv (note - 36) 12) 8.

(** The arguments [handleNoteOn] passes to [triggerNote]; [velocity] is
    the normalised 0..1 velocity of the MIDI layer, a double, and
    [normalizedVelocity] is [Math.floor(velocity * 127)]. *)
Definition noteOnCall (note : Z) (velocity : float) (returns : bool)
  : AudioEngine.Call :=
  let track := noteToTrack note in
  let normalizedVelocity := Js.floor (PrimFloat.mul velocity 127) in
  AudioEngine.mkCall note normalizedVelocity track 500 AudioEngine.fm returns.

(** [handleNoteOn(note, velocity)]. *)
Definition handleNoteOn (m : t) (e : AudioEngine.t) (note : Z)
    (velocity : float) (returns : bool)
  : AudioEngine.t * list AudioEngine.Event :=
  if negb (audioEngine m) then (e, [])
  else AudioEngine.perform e (noteOnCall note velocity returns).

(** [handleNoteOff(note)]: logs only. *)
Definition handleNoteOff (m : t) (note : Z) : t := m.

(** [handleControlChange(cc, value)]. *)
Definition handleControlChange (m : t) (cc value : Z)
  : t * list Invocation :=
  if bool_decide (PATTERN_CC_START ≤ cc)
     && bool_decide (cc ≤ PATTERN_CC_END)
  then
    let patternIndex := value + 1 in
    let hexPattern := hexId patternIndex in
    if negb (bool_decide (hexPattern = currentPattern m)) then
      let m' :=
        mk (audioEngine m) (initialized m) (connected m) hexPattern
           (patternCallback m) in
      match patternCallback m with
      | Some cb => (m', [Invoke cb hexPattern])
      | None => (m', [])
      end
    else (m, [])
  else (m, []).

Definition getCurrentPattern (m : t) : string := currentPattern m.

(** [setPattern(pattern)]. *)
Definition setPattern (m : t) (pattern : string) : t * list Invocation :=
  let m' :=
    mk (audioEngine m) (initialized m) (connected m) pattern
       (patternCallback m) in
  match patternCallback m with
  | Some cb => (m', [Invoke cb pattern])
  | None => (m', [])
  end.

Definition isConnected (m : t) : bool := connected m && initialized m.

Definition cleanup (m : t) : t :=
  mk (audioEngine m) false false (currentPattern m) (patternCallback m).

End MidiController.

(** ** Sequencer.tsx *)

Module Sequencer.

Record Step := mkStep {
  note : option Z;
  velocity : Z;
  instrument : Z;
  active : bool
}.

Record Pattern := mkPattern {
  id : string;
  name : string;
  steps : list (list Step)
}.

Definition NUM_STEPS : nat := 16.
Definition NUM_TRACKS : nat := 8.

Definition emptyStep : Step :=
  {| note := None; velocity := 100; instrument := 0; active := false |}.

(** The pattern pushed by iteration [i] of the initialiser loop. *)
Definition emptyPattern (i : Z) : Pattern :=
  let hexId := hexId i in
  {| id := hexId;
     name := hexId;
     steps := replicate NUM_TRACKS (replicate NUM_STEPS emptyStep) |}.

(** [for (let i = 1; i <= 255; i++)]. *)
Definition defaultPatterns : list Pattern :=
  (fun i => emptyPattern (Z.of_nat i)) <$> seq 1 255.

(** The component's own state. *)
Record t := mk {
  patterns : list Pattern;
  currentStep : nat;
  selectedTrack : nat;
  selectedStep : option (nat * nat)
}.

Definition initial : t :=
  {| patterns := defaultPatterns;
     currentStep := 0;
     selectedTrack := 0;
     selectedStep := None |}.

(** [patterns.find(p => p.id === currentPattern) || patterns[0]];
    [None] is [undefined]. *)
Definition activePattern (patterns : list Pattern) (currentPattern : string)
  : option Pattern :=
  match List.find (fun p => bool_decide (id p = currentPattern)) patterns with
  | Some p => Some p
  | None => patterns !! 0%nat
  end.

(** [(60 / bpm / 4) * 1000], in doubles. *)
Definition stepDuration (bpm : Z) : float :=
  PrimFloat.mul (PrimFloat.div (PrimFloat.div 60 (Js.number bpm)) 4) 1000.

(** The [forEach] of the tick over the tracks from index [trackIndex] on:
    every track's cell at column [next] is read, and the engine is asked to
    trigger it when it is active and has a note.  A track without a cell
    at [next] makes [step.active] a [TypeError].  [returns] gives, for
    each track index, the outcome of the backend call its trigger makes. *)
Fixpoint triggerTracks (stepDuration : float) (returns : nat → bool)
    (next : nat) (trackIndex : nat)
    (tracks : list (list Step)) (e : AudioEngine.t)
  : option (AudioEngine.t * list AudioEngine.Event) :=
  match tracks with
  | [] => Some (e, [])
  | trackSteps :: rest =>
      step ← trackSteps !! next;
      let '(e1, evs1) :=
        match active step, note step with
        | true, Some n =>
            AudioEngine.triggerNote e n (Js.number (velocity step))
              (Z.of_nat trackIndex) stepDuration
              AudioEngine.default_synthType (returns trackIndex)
        | _, _ => (e, [])
        end in
      '(e2, evs2) ←
        triggerTracks stepDuration returns next (S trackIndex) rest e1;
      Some (e2, evs1 ++ evs2)
  end.

(** One firing of the interval callback: the updater passed to
    [setCurrentStep], with the pattern and BPM of the current render. *)
Definition tick (bpm : Z) (returns : nat → bool)
    (activePattern : option Pattern)
    (e : AudioEngine.t) (prev : nat)
  : option (nat * AudioEngine.t * list AudioEngine.Event) :=
  let next := ((prev + 1) `mod` NUM_STEPS)%nat in
  p ← activePattern;
  '(e', evs) ← triggerTracks (stepDuration bpm) returns next 0 (steps p) e;
  Some (next, e', evs).

(** The branch of the playback effect taken while not playing:
    [setCurrentStep(0)]. *)
Definition playbackEffect (isPlaying : bool) (s : t) : t :=
  if negb isPlaying then
    mk (patterns s) 0 (selectedTrack s) (selectedStep s)
  else s.

Definition updateCell (f : Step → Step) (track step : nat)
    (tracks : list (list Step)) : list (list Step) :=
  imap (fun tIdx t =>
          if decide (tIdx = track)
          then imap (fun sIdx s => if decide (sIdx = step) then f s else s) t
          else t) tracks.

Definition updatePattern (f : Step → Step) (currentPattern : string)
    (track step : nat) (prev : list Pattern) : list Pattern :=
  (fun pattern =>
     if decide (id pattern = currentPattern)
     then mkPattern (id pattern) (name pattern)
            (updateCell f track step (steps pattern))
     else pattern) <$> prev.

(** [toggleStep(track, step)]: [{ ...s, active: !s.active }]. *)
Definition toggleStep (currentPattern : string) (track step : nat)
    (prev : list Pattern) : list Pattern :=
  updatePattern
    (fun s => mkStep (note s) (velocity s) (instrument s) (negb (active s)))
    currentPattern track step prev.

(** [setStepNote(track, step, note)]: [{ ...s, note }]. *)
Definition setStepNote (currentPattern : string) (track step : nat)
    (n : option Z) (prev : list Pattern) : list Pattern :=
  updatePattern
    (fun s => mkStep n (velocity s) (instrument s) (active s))
    currentPattern track step prev.

(** The cell [(track, step)] of the pattern tagged [patternId]. *)
Definition getStep (patterns : list Pattern) (patternId : string)
    (track step : nat) : option Step :=
  p ← List.find (fun p => bool_decide (id p = patternId)) patterns;
  t ← steps p !! track;
  t !! step.

(** The calls of [triggerNote] that one column asks for, track by track
    from index [trackIndex] on. *)
Fixpoint stepCalls (stepDuration : float) (returns : nat → bool)
    (next : nat) (trackIndex : nat)
    (tracks : list (list Step)) : list AudioEngine.Call :=
  match tracks with
  | [] => []
  | trackSteps :: rest =>
      match trackSteps !! next with
      | Some {| note := Some n; velocity := v; active := true |} =>
          [AudioEngine.mkCall n (Js.number v) (Z.of_nat trackIndex)
             stepDuration AudioEngine.default_synthType
             (returns trackIndex)]
      | _ => []
      end ++ stepCalls stepDuration returns next (S trackIndex) rest
  end.

(** A pattern has the grid shape: [NUM_TRACKS] rows of [NUM_STEPS] cells. *)
Definition gridOk (p : Pattern) : bool :=
  Nat.eqb (length (steps p)) NUM_TRACKS
  && forallb (fun t => Nat.eqb (length t) NUM_STEPS) (steps p).

(** A bank is well formed when it is not empty and all its patterns have
    the grid shape. *)
Definition wellFormed (ps : list Pattern) : bool :=
  match ps with
  | [] => false
  | _ => forallb gridOk ps
  end.

(** The two step-editing entry points, as data. *)
Inductive Edit :=
| Toggle (currentPattern : string) (track step : nat)
| SetNote (currentPattern : string) (track step : nat) (n : option Z).

Definition applyEdit (ps : list Pattern) (ed : Edit) : list Pattern :=
  match ed with
  | Toggle cur track step => toggleStep cur track step ps
  | SetNote cur track step n => setStepNote cur track step n ps
  end.

Definition applyEdits (ps : list Pattern) (eds : list Edit) : list Pattern :=
  foldl applyEdit ps eds.

(** The cell a toggle produces: [{ ...s, active: !s.active }]. *)
Definition flipped (s : Step) : Step :=
  mkStep (note s) (velocity s) (instrument s) (negb (active s)).

End Sequencer.

(** ** App.tsx: the transport and the wiring of the three objects *)

Module App.

Record t := mk {
  isPlaying : bool;
  currentPattern : string;
  bpm : Z
}.

Definition initial : t :=
  {| isPlaying := false; currentPattern := "000x01"; bpm := 120 |}.

(** The handle of [(pattern) => setCurrentPattern(pattern)]. *)
Definition patternCallback : MidiController.Callback := 0%nat.

(** The application with the objects it owns. *)
Record World := mkWorld {
  app : t;
  audioEngine : AudioEngine.t;
  midiController : MidiController.t;
  sequencer : Sequencer.t
}.

Definition boot : World :=
  {| app := initial;
     audioEngine := AudioEngine.constructor;
     midiController := MidiController.constructor;
     sequencer := Sequencer.initial |}.

(** What can happen to the application: user gestures, the interval
    timer, and events of the MIDI device.  A tick and a note-on come with
    the outcomes of the backend calls they lead to. *)
Inductive Action :=
| Mount (toneStart webMidi : bool) (inputs : nat)
| PlayPause (toneStart : bool)
| Stop
| BpmChange (newBpm : Z)
| Tick (returns : nat → bool)
| ClickStep (track step : nat)
| ContextMenuStep (track step : nat)
| SelectTrack (track : nat)
| NoteOn (note : Z) (velocity : float) (returns : bool)
| NoteOff (note : Z)
| ControlChange (cc value : Z)
| DeviceConnected
| DeviceDisconnected (current : bool).

(** Running the registered callback: [setCurrentPattern(pattern)]. *)
Definition deliver (a : t) (inv : MidiController.Invocation) : t :=
  if decide (MidiController.inv_callback inv = patternCallback)
  then mk (isPlaying a) (MidiController.inv_pattern inv) (bpm a)
  else a.

(** The playback effect of the sequencer, re-run with the props of the
    new render. *)
Definition render (w : World) : World :=
  mkWorld (app w) (audioEngine w) (midiController w)
    (Sequencer.playbackEffect (isPlaying (app w)) (sequencer w)).

Definition setIsPlaying (b : bool) (e : AudioEngine.t) (w : World) : World :=
  render (mkWorld (mk b (currentPattern (app w)) (bpm (app w))) e
            (midiController w) (sequencer w)).

Definition setPatterns (f : list Sequencer.Pattern → list Sequencer.Pattern)
    (sel : option (nat * nat)) (w : World) : World :=
  let s := sequencer w in
  render (mkWorld (app w) (audioEngine w) (midiController w)
            (Sequencer.mk (f (Sequencer.patterns s))
               (Sequencer.currentStep s) (Sequencer.selectedTrack s) sel)).

(** One action; the events are the backend calls it makes.  [None] is an
    uncaught [TypeError].  A [start] that rejects is caught by
    [handlePlayPause], which then leaves [isPlaying] alone; a [setBpm] that
    throws does so after the state setter has taken the new value. *)
Definition step (w : World) (a : Action)
  : option (World * list AudioEngine.Event) :=
  let e := audioEngine w in
  match a with
  | Mount toneStart webMidi inputs =>
      let e' := default e (AudioEngine.initialize toneStart e) in
      let m' :=
        MidiController.initialize webMidi inputs (Some patternCallback)
          (midiController w) in
      Some (render (mkWorld (app w) e' m' (sequencer w)), [])
  | PlayPause toneStart =>
      if isPlaying (app w) then
        Some (setIsPlaying false (AudioEngine.stop e) w, [])
      else
        match AudioEngine.start toneStart (bpm (app w)) e with
        | (e', true) => Some (setIsPlaying true e' w, [])
        | (e', false) =>
            Some (mkWorld (app w) e' (midiController w) (sequencer w), [])
        end
  | Stop => Some (setIsPlaying false (AudioEngine.stop e) w, [])
  | BpmChange newBpm =>
      let e' :=
        if isPlaying (app w) then (AudioEngine.setBpm newBpm e).1 else e in
      Some (render (mkWorld
                      (mk (isPlaying (app w)) (currentPattern (app w)) newBpm)
                      e' (midiController w) (sequencer w)), [])
  | Tick returns =>
      if isPlaying (app w) then
        let s := sequencer w in
        '(next, e', evs) ←
          Sequencer.tick (bpm (app w)) returns
            (Sequencer.activePattern (Sequencer.patterns s)
               (currentPattern (app w)))
            e (Sequencer.currentStep s);
        Some (mkWorld (app w) e' (midiController w)
                (Sequencer.mk (Sequencer.patterns s) next
                   (Sequencer.selectedTrack s) (Sequencer.selectedStep s)),
              evs)
      else Some (w, [])
  | ClickStep track step =>
      Some (setPatterns
              (Sequencer.toggleStep (currentPattern (app w)) track step)
              (Some (track, step)) w, [])
  | ContextMenuStep track step =>
      Some (setPatterns
              (Sequencer.setStepNote (currentPattern (app w)) track step None)
              (Sequencer.selectedStep (sequencer w)) w, [])
  | SelectTrack track =>
      let s := sequencer w in
      Some (mkWorld (app w) e (midiController w)
              (Sequencer.mk (Sequencer.patterns s) (Sequencer.currentStep s)
                 track (Sequencer.selectedStep s)), [])
  | NoteOn note velocity returns =>
      if MidiController.connected (midiController w) then
        let '(e', evs) :=
          MidiController.handleNoteOn (midiController w) e note velocity
            returns in
        Some (mkWorld (app w) e' (midiController w) (sequencer w), evs)
      else Some (w, [])
  | NoteOff note =>
      Some (mkWorld (app w) e
              (MidiController.handleNoteOff (midiController w) note)
              (sequencer w), [])
  | ControlChange cc value =>
      if MidiController.connected (midiController w) then
        let '(m', invs) :=
          MidiController.handleControlChange (midiController w) cc value in
        Some (render (mkWorld (foldl deliver (app w) invs) e m'
                        (sequencer w)), [])
      else Some (w, [])
  | DeviceConnected =>
      if MidiController.initialized (midiController w) then
        Some (mkWorld (app w) e
                (MidiController.onConnected (midiController w))
                (sequencer w), [])
      else Some (w, [])
  | DeviceDisconnected current =>
      if MidiController.initialized (midiController w) then
        Some (mkWorld (app w) e
                (MidiController.onDisconnected current (midiController w))
                (sequencer w), [])
      else Some (w, [])
  end.

(** A session: the actions in order, with the events concatenated. *)
Fixpoint run (w : World) (acts : list Action)
  : option (World * list AudioEngine.Event) :=
  match acts with
  | [] => Some (w, [])
  | a :: rest =>
      '(w1, evs1) ← step w a;
      '(w2, evs2) ← run w1 rest;
      Some (w2, evs1 ++ evs2)
  end.

End App.

(** ** Sequences of engine method calls *)

Module EngineOps.

(** The public methods of [AudioEngine], as data. *)
Inductive Op :=
| Initialize (toneStart : bool)
| Start (toneStart : bool) (bpm : Z)
| Stop
| SetBpm (bpm : Z)
| Trigger (c : AudioEngine.Call)
| LoadSample (track : Z)
| Cleanup.

(** One method call, with the engine it leaves behind whether it returned,
    threw or rejected. *)
Definition apply (e : AudioEngine.t) (op : Op)
  : AudioEngine.t * list AudioEngine.Event :=
  match op with
  | Initialize toneStart =>
      (default e (AudioEngine.initialize toneStart e), [])
  | Start toneStart bpm => ((AudioEngine.start toneStart bpm e).1, [])
  | Stop => (AudioEngine.stop e, [])
  | SetBpm bpm => ((AudioEngine.setBpm bpm e).1, [])
  | Trigger c => AudioEngine.perform e c
  | LoadSample track => (AudioEngine.loadSample track e, [])
  | Cleanup => (AudioEngine.cleanup e, [])
  end.

Fixpoint run (e : AudioEngine.t) (ops : list Op)
  : AudioEngine.t * list AudioEngine.Event :=
  match ops with
  | [] => (e, [])
  | op :: rest =>
      let '(e1, evs1) := apply e op in
      let '(e2, evs2) := run e1 rest in
      (e2, evs1 ++ evs2)
  end.

(** The run of [initialize] or [loadSample] that created a voice. *)
Definition voiceEpoch (v : AudioEngine.Voice) : nat :=
  match v with
  | AudioEngine.FMSynth ep _ _ | AudioEngine.Synth ep _ _
  | AudioEngine.MembraneSynth ep _ | AudioEngine.NoiseSynth ep _
  | AudioEngine.Sampler ep _ => ep
  end.

(** The drum voice [initialize] keeps for a track: the kick below track 4,
    the snare from track 4 on. *)
Definition drumVoice (ep : nat) (track : Z) : AudioEngine.Voice :=
  if decide (track < 4) then AudioEngine.MembraneSynth ep track
  else AudioEngine.NoiseSynth ep track.

Definition onTrack (track : Z) : Prop := 0 ≤ track < 8.

(** What holds of the engine whatever methods have been called. *)
Record Inv (e : AudioEngine.t) : Prop := {
  inv_max : AudioEngine.maxVoicesPerTrack e = 4%nat;
  inv_cursor : ∀ track, onTrack track →
    ∃ c, AudioEngine.voicePool e !! track = Some c ∧ 0 ≤ c ≤ 4;
  inv_outside : ∀ track, ¬ onTrack track →
    AudioEngine.voicePool e !! track = None
    ∧ AudioEngine.fmSynths e !! track = None
    ∧ AudioEngine.subtractiveSynths e !! track = None
    ∧ AudioEngine.drumSynths e !! track = None;
  inv_tables : AudioEngine.initialized e = true →
    ∀ track, onTrack track →
      ∃ ep, (ep < AudioEngine.epoch e)%nat
        ∧ AudioEngine.fmSynths e !! track
          = Some (AudioEngine.FMSynth ep track <$> seq 0 4)
        ∧ AudioEngine.subtractiveSynths e !! track
          = Some (AudioEngine.Synth ep track <$> seq 0 4)
        ∧ AudioEngine.drumSynths e !! track = Some (drumVoice ep track);
  inv_samplers : ∀ track v, AudioEngine.samplers e !! track = Some v →
    ∃ ep, v = AudioEngine.Sampler ep track ∧ (ep < AudioEngine.epoch e)%nat
}.

End EngineOps.

(** ** Sessions of the application *)

Module Session.

Definition isNoteOn (a : App.Action) : bool :=
  match a with
  | App.NoteOn _ _ _ => true
  | _ => false
  end.

(** No cell of the bank carries a note. *)
Definition pitchless (ps : list Sequencer.Pattern) : Prop :=
  Forall (fun p =>
            Forall (Forall (fun s => Sequencer.note s = None))
              (Sequencer.steps p)) ps.

(** What holds of the application after every action. *)
Record Inv (w : App.World) : Prop := {
  s_sync :
    App.currentPattern (App.app w)
    = MidiController.currentPattern (App.midiController w);
  s_connected :
    MidiController.connected (App.midiController w) = true →
    MidiController.initialized (App.midiController w) = true;
  s_registered :
    MidiController.initialized (App.midiController w) = true →
    MidiController.patternCallback (App.midiController w)
    = Some App.patternCallback
    ∧ MidiController.audioEngine (App.midiController w) = true;
  s_started :
    AudioEngine.transport_started (App.audioEngine w)
    = App.isPlaying (App.app w);
  s_playing :
    App.isPlaying (App.app w) = true →
    AudioEngine.initialized (App.audioEngine w) = true
    ∧ (0 ≤ App.bpm (App.app w) →
       AudioEngine.transport_bpm (App.audioEngine w) = App.bpm (App.app w));
  s_tempo : 0 ≤ AudioEngine.transport_bpm (App.audioEngine w);
  s_stopped :
    App.isPlaying (App.app w) = false →
    Sequencer.currentStep (App.sequencer w) = 0%nat;
  s_step :
    (Sequencer.currentStep (App.sequencer w) < Sequencer.NUM_STEPS)%nat;
  s_wellFormed :
    Sequencer.wellFormed (Sequencer.patterns (App.sequencer w)) = true;
  s_pitchless : pitchless (Sequencer.patterns (App.sequencer w));
  s_engine : EngineOps.Inv (App.audioEngine w)
}.

End Session.

(** * Properties *)

(** ** Voice allocation ([AudioEngine.triggerNote]) *)

Section VoiceAllocation.
Import AudioEngine.

Lemma triggerNote_initialized e note velocity track duration k r :
  initialized (triggerNote e note velocity track duration k r).1
  = initialized e.
Proof.
  unfold triggerNote, triggerPoly.
  destruct (initialized e) eqn:Hi; simpl; [|done].
  destruct k; simpl; repeat case_match; simpl; done.
Qed.

Lemma triggerNote_tables e note velocity track duration k r :
  let e' := (triggerNote e note velocity track duration k r).1 in
  fmSynths e' = fmSynths e ∧ subtractiveSynths e' = subtractiveSynths e
  ∧ drumSynths e' = drumSynths e ∧ samplers e' = samplers e.
Proof.
  unfold triggerNote, triggerPoly.
  destruct (initialized e); simpl; [|done].
  destruct k; simpl; repeat case_match; simpl; done.
Qed.

(** A trigger only ever writes the cursor of its own track. *)
Lemma triggerNote_other_track e note velocity track duration k r t :
  t ≠ track →
  voicePool (triggerNote e note velocity track duration k r).1 !! t
  = voicePool e !! t.
Proof.
  intros Hne. unfold triggerNote, triggerPoly.
  destruct (initialized e); simpl; [|done].
  destruct k; simpl; repeat case_match; simpl;
    rewrite ?lookup_insert_ne; done.
Qed.

(** The percussive and sampler cases never write a cursor. *)
Lemma triggerNote_unpooled e note velocity track duration k r :
  isMelodic k = false →
  voicePool (triggerNote e note velocity track duration k r).1 = voicePool e.
Proof.
  intros Hk. unfold triggerNote.
  destruct (initialized e); simpl; [|done].
  destruct k; try discriminate; simpl; repeat case_match; done.
Qed.

(** A trigger whose backend call throws, or that makes none, leaves the
    engine as it was. *)
Lemma triggerNote_thrown e note velocity track duration k :
  (triggerNote e note velocity track duration k false).1 = e.
Proof.
  unfold triggerNote, triggerPoly.
  destruct (initialized e); simpl; [|done].
  destruct k; simpl; repeat case_match; done.
Qed.

(** The polyphonic case on a non-empty voice array with a cursor [c ≥ 0]:
    the voice at [c mod N] is triggered, and the cursor becomes
    [c mod N + 1] when the call returns. *)
Lemma triggerPoly_step table e note seconds v track voices c r :
  table !! track = Some voices →
  voices ≠ [] →
  default 0 (voicePool e !! track) = c →
  0 ≤ c →
  let i := c `mod` Z.of_nat (length voices) in
  ∃ voice,
    voices !! Z.to_nat i = Some voice
    ∧ triggerPoly table e note seconds v track r
      = (if r then set_voicePool (<[track := i + 1]> (voicePool e)) e else e,
         [TriggerAttackRelease voice (Frequency note) seconds v]).
Proof.
  intros Ht Hne Hc Hpos i.
  assert (0 < Z.of_nat (length voices)) as HN
    by (destruct voices; [done | simpl; lia]).
  assert (0 ≤ i < Z.of_nat (length voices)) as Hi
    by (apply Z.mod_pos_bound; lia).
  destruct (lookup_lt_is_Some_2 voices (Z.to_nat i)) as [voice Hv]; [lia|].
  exists voice. split; [done|].
  unfold triggerPoly, Js.rem, Js.index. rewrite Ht, Hc. simpl.
  rewrite decide_False by lia.
  rewrite Z.rem_mod_nonneg by lia. fold i.
  rewrite decide_True by lia. rewrite Hv. done.
Qed.

Lemma perform_melodic e c :
  initialized e = true →
  isMelodic (c_synthType c) = true →
  perform e c
  = triggerPoly (polyTable (c_synthType c) e) e (c_note c)
      (PrimFloat.div (c_duration c) 1000)
      (PrimFloat.div (c_velocity c) 127) (c_track c) (c_returns c).
Proof.
  intros Hi Hk. unfold perform, triggerNote. rewrite Hi. simpl.
  destruct (c_synthType c); done.
Qed.

Lemma perform_polyTable e c k :
  polyTable k (perform e c).1 = polyTable k e.
Proof.
  destruct (triggerNote_tables e (c_note c) (c_velocity c) (c_track c)
              (c_duration c) (c_synthType c) (c_returns c)) as (Hf & Hs & _).
  unfold perform. destruct k; simpl; done.
Qed.

Lemma returnedCount_cons c cs :
  returnedCount (c :: cs)
  = ((if c_returns c then 1 else 0) + returnedCount cs)%nat.
Proof.
  unfold returnedCount. rewrite filter_cons.
  destruct (c_returns c); [by rewrite decide_True | by rewrite decide_False].
Qed.

Lemma returnedCount_all cs :
  Forall (fun c => c_returns c = true) cs → returnedCount cs = length cs.
Proof.
  induction 1 as [|c cs Hc _ IH]; [done|].
  rewrite returnedCount_cons, Hc, IH. done.
Qed.

(** The voices used by a run of melodic triggers of one kind on one
    track: call number [j] (from 0) uses the slot the cursor has reached
    after the calls before it that returned. *)
Lemma run_voices track k voices cs :
  isMelodic k = true →
  voices ≠ [] →
  Forall (fun c => c_track c = track ∧ c_synthType c = k) cs →
  ∀ e c,
    initialized e = true →
    polyTable k e !! track = Some voices →
    default 0 (voicePool e !! track) = c →
    0 ≤ c →
    length (voicesOf (performAll e cs).2) = length cs
    ∧ ∀ j, (j < length cs)%nat →
        voicesOf (performAll e cs).2 !! j
        = voices !! Z.to_nat ((c + Z.of_nat (returnedCount (take j cs)))
                              `mod` Z.of_nat (length voices)).
Proof.
  intros Hk Hne Hall. induction Hall as [|x cs [Hx1 Hx2] Hall IH];
    intros e c Hi Ht Hc Hpos.
  - split; [done | simpl; lia].
  - assert (0 < Z.of_nat (length voices)) as HN
      by (destruct voices; [done | simpl; lia]).
    pose proof (perform_melodic e x Hi) as Hp.
    rewrite Hx2 in Hp. specialize (Hp Hk). rewrite Hx1 in Hp.
    destruct (triggerPoly_step (polyTable k e) e (c_note x)
                (PrimFloat.div (c_duration x) 1000)
                (PrimFloat.div (c_velocity x) 127)
                track voices c (c_returns x) Ht Hne Hc Hpos)
      as (voice & Hv & Hstep).
    rewrite Hstep in Hp.
    assert (polyTable k (perform e x).1 = polyTable k e) as Htab
      by apply perform_polyTable.
    simpl. destruct (perform e x) as [e1 evs1] eqn:He1.
    injection Hp as -> ->.
    destruct (performAll _ cs) as [e2 evs2] eqn:He2.
    simpl in Htab.
    destruct (c_returns x) eqn:Hr.
    + set (e1 := set_voicePool _ e) in *.
      destruct (IH e1 (c `mod` Z.of_nat (length voices) + 1)) as [Hlen Hnth].
      * done.
      * by rewrite Htab.
      * subst e1. simpl. by rewrite lookup_insert_eq.
      * pose proof (Z.mod_pos_bound c (Z.of_nat (length voices)) HN). lia.
      * rewrite He2 in Hlen, Hnth. simpl in Hlen, Hnth. split.
        -- simpl. by rewrite Hlen.
        -- intros [|j] Hj.
           ++ simpl. by rewrite Z.add_0_r.
           ++ rewrite firstn_cons, returnedCount_cons, Hr. simpl lookup.
              rewrite Hnth by (simpl in Hj; lia). do 2 f_equal.
              rewrite <- Z.add_assoc, Z.add_mod_idemp_l by lia.
              f_equal. lia.
    + destruct (IH e c Hi Ht Hc Hpos) as [Hlen Hnth].
      rewrite He2 in Hlen, Hnth. simpl in Hlen, Hnth. split.
      * simpl. by rewrite Hlen.
      * intros [|j] Hj.
        -- simpl. by rewrite Z.add_0_r.
        -- rewrite firstn_cons, returnedCount_cons, Hr. simpl lookup.
           rewrite Hnth by (simpl in Hj; lia). done.
Qed.

Lemma performAll_initialized cs : ∀ e,
  initialized (performAll e cs).1 = initialized e.
Proof.
  induction cs as [|c cs IH]; intros e; [done|]. simpl.
  pose proof (triggerNote_initialized e (c_note c) (c_velocity c)
                (c_track c) (c_duration c) (c_synthType c) (c_returns c))
    as H.
  fold (perform e c) in H. destruct (perform e c) as [e1 evs1].
  specialize (IH e1). destruct (performAll e1 cs) as [e2 evs2].
  simpl in *. congruence.
Qed.

(** The cursor of a track whose melodic pools hold four voices, after a
    sequence of calls: every melodic trigger on the track whose backend
    call returns applies [advance], nothing else touches it. *)
Lemma performAll_cursor track cs : ∀ e c,
  initialized e = true →
  (∀ k, isMelodic k = true →
        ∃ voices,
          polyTable k e !! track = Some voices ∧ length voices = 4%nat) →
  voicePool e !! track = Some c →
  0 ≤ c →
  voicePool (performAll e cs).1 !! track
  = Some (Nat.iter (melodicCount track cs) advance c).
Proof.
  induction cs as [|x cs IH]; intros e c Hi Htab Hc Hpos; [done|].
  simpl. unfold melodicCount. rewrite filter_cons.
  pose proof (triggerNote_initialized e (c_note x) (c_velocity x)
                (c_track x) (c_duration x) (c_synthType x) (c_returns x))
    as Hi1.
  fold (perform e x) in Hi1.
  assert (∀ k, polyTable k (perform e x).1 = polyTable k e) as Htab1
    by (intros k; apply perform_polyTable).
  destruct (decide (c_track x = track ∧ isMelodic (c_synthType x) = true
                    ∧ c_returns x = true))
    as [(Ht & Hk & Hr)|Hno].
  - destruct (Htab _ Hk) as (voices & Hv & Hlen).
    pose proof (perform_melodic e x Hi Hk) as Hp. rewrite Ht, Hr in Hp.
    destruct (triggerPoly_step (polyTable (c_synthType x) e) e (c_note x)
                (PrimFloat.div (c_duration x) 1000)
                (PrimFloat.div (c_velocity x) 127)
                track voices c true Hv) as (voice & _ & Hstep);
      [by destruct voices | by rewrite Hc | done |].
    rewrite Hstep, Hlen in Hp. change (Z.of_nat 4) with 4 in Hp.
    destruct (perform e x) as [e1 evs1]. injection Hp as -> ->.
    specialize (IH (set_voicePool (<[track:=c `mod` 4 + 1]> (voicePool e)) e)
                  (advance c)).
    destruct (performAll _ cs) as [e2 evs2]. simpl in *.
    rewrite IH; [| done | | |].
    + f_equal. symmetry. apply (Nat.iter_succ_r _ advance).
    + intros k Hk'. rewrite Htab1. by apply Htab.
    + by rewrite lookup_insert_eq.
    + unfold advance. pose proof (Z.mod_pos_bound c 4). lia.
  - assert (voicePool (perform e x).1 !! track = voicePool e !! track) as Hsame.
    { destruct (decide (track = c_track x)) as [->|Hne];
        [|unfold perform; by apply triggerNote_other_track].
      destruct (isMelodic (c_synthType x)) eqn:Hk;
        [|unfold perform; by rewrite triggerNote_unpooled].
      destruct (c_returns x) eqn:Hr; [by destruct Hno|].
      unfold perform. by rewrite Hr, triggerNote_thrown. }
    destruct (perform e x) as [e1 evs1]. specialize (IH e1 c).
    destruct (performAll e1 cs) as [e2 evs2]. simpl in *.
    apply IH; [congruence | | congruence | done].
    intros k Hk'. rewrite Htab1. by apply Htab.
Qed.

(** Closed form of the cursor after [k] melodic triggers from 0. *)
Lemma iter_advance (k : nat) :
  Nat.iter k advance 0
  = if decide (k = 0%nat) then 0 else (Z.of_nat k - 1) `mod` 4 + 1.
Proof.
  induction k as [|k IH]; [done|].
  rewrite (Nat.iter_succ _ advance), IH. unfold advance.
  rewrite (decide_False (P := S k = 0%nat)) by done.
  destruct (decide (k = 0%nat)) as [->|Hk]; [done|].
  rewrite Z.add_mod_idemp_l by lia. f_equal. f_equal. lia.
Qed.

Lemma ready_tables track k :
  0 ≤ track < 8 →
  isMelodic k = true →
  ∃ voices,
    polyTable k ready !! track = Some voices ∧ length voices = 4%nat.
Proof.
  intros Ht Hk.
  assert (track = 0 ∨ track = 1 ∨ track = 2 ∨ track = 3 ∨ track = 4
          ∨ track = 5 ∨ track = 6 ∨ track = 7) as Hcases by lia.
  destruct k; try discriminate;
    repeat (destruct Hcases as [->|Hcases]); try subst track;
    eexists; (split; [vm_compute; reflexivity | reflexivity]).
Qed.

Lemma ready_cursor track :
  0 ≤ track < 8 → voicePool ready !! track = Some 0.
Proof.
  intros Ht.
  assert (track = 0 ∨ track = 1 ∨ track = 2 ∨ track = 3 ∨ track = 4
          ∨ track = 5 ∨ track = 6 ∨ track = 7) as Hcases by lia.
  repeat (destruct Hcases as [->|Hcases]); try subst track;
    vm_compute; reflexivity.
Qed.

(** C9: a [triggerNote] call issued while the engine is not initialised
    is a silent no-op: it returns normally, makes no backend call (so none
    can throw: the outcome [r] is never consulted), triggers no voice, and
    leaves the whole engine, every track's cursor included, as it was. *)
Theorem C9_trigger_before_initialize_is_noop
    (e : t) (note : Z) (velocity : float) (track : Z) (duration : float)
    (k : SynthType) (r : bool) :
  initialized e = false →
  triggerNote e note velocity track duration k r = (e, []).
Proof. intros Hi. unfold triggerNote. by rewrite Hi. Qed.

Lemma C9_trigger_before_initialize_witness :
  initialized constructor = false
  ∧ triggerNote constructor 60 100 0 125 fm true = (constructor, []).
Proof.
  split; [reflexivity|].
  apply (C9_trigger_before_initialize_is_noop constructor 60 100 0 125
           fm true).
  reflexivity.
Defined.

(** C6 as stated fails.  On the freshly initialised engine, five
    consecutive FM triggers on track 0, the first with the step duration of
    BPM 0 (infinite, which the backend refuses by throwing) and four
    ordinary ones: the first call uses slot 0 and, its backend call having
    thrown, does not advance the cursor; the calls use slots 0, 0, 1, 2, 3,
    so the first and the fifth do not get the same voice.  And in a run of
    five ordinary triggers of which the backend refuses the fifth (a
    retrigger of the first voice), the fifth call takes slot 0 and leaves
    the cursor at 4, where the fourth had put it. *)
Lemma C6_allocation_counterexample :
  let c1 := mkCall 60 100 0 (Sequencer.stepDuration 0) fm false in
  let c := mkCall 60 100 0 125 fm true in
  let cs := c1 :: replicate 4 c in
  let handles := voicesOf (performAll ready cs).2 in
  let c5 := mkCall 60 100 0 125 fm false in
  let e4 := (performAll ready (replicate 4 c)).1 in
  c_duration c1 = infinity
  ∧ length (default [] (fmSynths ready !! 0)) = 4%nat
  ∧ length cs = 5%nat
  ∧ voicePool ready !! 0 = Some 0
  ∧ voicesOf (perform ready c1).2 = [FMSynth 0 0 0]
  ∧ voicePool (perform ready c1).1 !! 0 = Some 0
  ∧ handles = [FMSynth 0 0 0; FMSynth 0 0 0; FMSynth 0 0 1; FMSynth 0 0 2;
               FMSynth 0 0 3]
  ∧ handles !! 0%nat ≠ handles !! 4%nat
  ∧ voicePool e4 !! 0 = Some 4
  ∧ voicesOf (perform e4 c5).2 = [FMSynth 0 0 0]
  ∧ voicePool (perform e4 c5).1 !! 0 = Some 4.
Proof. vm_compute. repeat split; discriminate. Qed.

(** C6 (amended): allocation on a track is cyclic with the pool size as
    period as long as the backend accepts the triggers.  On an initialised
    engine whose pool of the kind for the track holds [N > 0] voices, a
    single trigger makes one backend call, on the slot at [cursor mod N];
    it leaves the cursor at that slot index plus one when the call
    returns, and leaves the engine untouched when the call throws.  In a
    run of [N+1] consecutive triggers of that kind on that track, call [j]
    uses slot [(cursor + r) mod N] where [r] counts the calls before it
    that returned; so when every call of the run returns, call [j] uses
    slot [(cursor + j) mod N] and the first and the last call get the same
    voice handle. *)
Theorem C6_allocation_cyclic
    (e : t) (track : Z) (k : SynthType) (voices : list Voice)
    (cs : list Call) :
  initialized e = true →
  isMelodic k = true →
  polyTable k e !! track = Some voices →
  voices ≠ [] →
  0 ≤ default 0 (voicePool e !! track) →
  Forall (fun c => c_track c = track ∧ c_synthType c = k) cs →
  length cs = S (length voices) →
  let cursor := default 0 (voicePool e !! track) in
  let N := Z.of_nat (length voices) in
  let handles := voicesOf (performAll e cs).2 in
  (∀ c, c_track c = track → c_synthType c = k →
     ∃ voice,
       voices !! Z.to_nat (cursor `mod` N) = Some voice
       ∧ voicesOf (perform e c).2 = [voice]
       ∧ (c_returns c = true →
          voicePool (perform e c).1 !! track = Some (cursor `mod` N + 1))
       ∧ (c_returns c = false → (perform e c).1 = e))
  ∧ length handles = S (length voices)
  ∧ (∀ j, (j ≤ length voices)%nat →
       handles !! j
       = voices !! Z.to_nat
                      ((cursor + Z.of_nat (returnedCount (take j cs)))
                       `mod` N))
  ∧ (Forall (fun c => c_returns c = true) cs →
     (∀ j, (j ≤ length voices)%nat →
        handles !! j = voices !! Z.to_nat ((cursor + Z.of_nat j) `mod` N))
     ∧ is_Some (handles !! 0%nat)
     ∧ handles !! length voices = handles !! 0%nat).
Proof.
  intros Hi Hk Ht Hne Hpos Hall Hlen cursor N handles.
  assert (0 < N) as HN by (subst N; destruct voices; [done | simpl; lia]).
  destruct (run_voices track k voices cs Hk Hne Hall e cursor Hi Ht eq_refl
              Hpos) as [Hl Hnth].
  fold handles in Hl, Hnth. fold N in Hnth.
  assert (∀ j, (j ≤ length voices)%nat →
            Forall (fun c => c_returns c = true) cs →
            handles !! j = voices !! Z.to_nat ((cursor + Z.of_nat j) `mod` N))
    as Hcyc.
  { intros j Hj Hret. rewrite Hnth by lia.
    rewrite returnedCount_all by (by apply Forall_take).
    rewrite length_take. do 4 f_equal. lia. }
  split; [|split; [|split; [|split; [|split]]]].
  - intros c Hc1 Hc2.
    pose proof (perform_melodic e c Hi) as Hp. rewrite Hc2 in Hp.
    specialize (Hp Hk). rewrite Hc1 in Hp.
    destruct (triggerPoly_step (polyTable k e) e (c_note c)
                (PrimFloat.div (c_duration c) 1000)
                (PrimFloat.div (c_velocity c) 127)
                track voices cursor (c_returns c) Ht Hne eq_refl Hpos)
      as (voice & Hv & Hstep).
    exists voice. rewrite Hp, Hstep. simpl.
    split; [done|]. split; [done|]. split.
    + intros ->. simpl. by rewrite lookup_insert_eq.
    + by intros ->.
  - by rewrite Hl.
  - intros j Hj. apply Hnth. lia.
  - intros j Hj. by apply Hcyc.
  - apply lookup_lt_is_Some. rewrite Hl. lia.
  - rewrite !Hcyc by (done || lia). do 2 f_equal.
    rewrite Z.add_0_r. fold N.
    rewrite <- Z.add_mod_idemp_r, Z.mod_same, Z.add_0_r by lia. done.
Qed.

Lemma C6_allocation_cyclic_witness :
  let cs := replicate 5 (mkCall 60 100 0 125 fm true) in
  let handles := voicesOf (performAll ready cs).2 in
  handles !! 4%nat = handles !! 0%nat
  ∧ handles !! 0%nat = Some (FMSynth 0 0 0).
Proof.
  intros cs handles.
  destruct (C6_allocation_cyclic ready 0 fm (FMSynth 0 0 <$> seq 0 4) cs)
    as (_ & _ & _ & Hcyc).
  - reflexivity.
  - reflexivity.
  - vm_compute. reflexivity.
  - simpl. discriminate.
  - vm_compute. discriminate.
  - subst cs. simpl. repeat constructor.
  - reflexivity.
  - destruct Hcyc as (Hnth & _ & Hsame);
      [subst cs; simpl; repeat constructor|].
    split; [exact Hsame | exact (Hnth 0%nat (Nat.le_0_l _))].
Defined.

(** C5 (amended): for every track 0..7 of the initialised engine, after
    any sequence of [triggerNote] calls of which [k] are FM or subtractive
    triggers on that track whose backend call returned, the stored cursor
    is 0 when [k = 0] and [(k - 1) mod 4 + 1] otherwise; it lies in 0..4
    and is congruent to [k] modulo the pool size 4, so the next slot
    [cursor mod 4] is [k mod 4].  Nothing else counts: a melodic trigger
    whose backend call throws leaves the cursor where it was, and
    percussive and sampler triggers never touch it. *)
Theorem C5_cursor_after_triggers (track : Z) (cs : list Call) :
  0 ≤ track < 8 →
  let k := Z.of_nat (melodicCount track cs) in
  ∃ cursor,
    voicePool (performAll ready cs).1 !! track = Some cursor
    ∧ cursor = (if decide (k = 0) then 0 else (k - 1) `mod` 4 + 1)
    ∧ 0 ≤ cursor ≤ 4
    ∧ cursor `mod` 4 = k `mod` 4.
Proof.
  intros Ht k. eexists. split.
  - apply performAll_cursor; [reflexivity | | by apply ready_cursor | done].
    intros k' Hk'. by apply ready_tables.
  - rewrite iter_advance. subst k.
    destruct (decide (melodicCount track cs = 0%nat)) as [->|Hk].
    + done.
    + rewrite decide_False by lia.
      pose proof (Z.mod_pos_bound (Z.of_nat (melodicCount track cs) - 1) 4).
      split; [done|]. split; [lia|].
      rewrite Z.add_mod_idemp_l by lia. f_equal. lia.
Qed.

Lemma C5_cursor_after_triggers_witness :
  let cs := [mkCall 60 100 2 125 fm true; mkCall 40 90 2 125 drum true;
             mkCall 62 100 2 125 subtractive true;
             mkCall 61 100 2 125 fm false;
             mkCall 64 100 1 125 fm true] in
  0 ≤ 2 < 8
  ∧ melodicCount 2 cs = 2%nat
  ∧ ∃ cursor, voicePool (performAll ready cs).1 !! 2 = Some cursor
              ∧ cursor `mod` 4 = 2 `mod` 4.
Proof.
  intros cs. split; [lia|]. split; [reflexivity|].
  destruct (C5_cursor_after_triggers 2 cs) as (cursor & Hc & _ & _ & Hmod);
    [lia|].
  exists cursor. split; [exact Hc | exact Hmod].
Defined.

(** C5 as stated fails: after four FM triggers on track 0, all of them
    returning, the stored cursor is 4, not [4 mod 4 = 0]. *)
Lemma C5_cursor_counterexample :
  let cs := replicate 4 (mkCall 60 100 0 125 fm true) in
  melodicCount 0 cs = 4%nat
  ∧ voicePool (performAll ready cs).1 !! 0 = Some 4
  ∧ voicePool (performAll ready cs).1 !! 0
    ≠ Some (Z.of_nat (length cs) `mod` 4).
Proof. vm_compute. split; [done|]. split; [done|]. discriminate. Qed.

End VoiceAllocation.

(** ** Transport ([AudioEngine.start], [AudioEngine.setBpm], [App]) *)

Section Transport.
Import AudioEngine.

Lemma initialize_initialized toneStart e e' :
  initialize toneStart e = Some e' → initialized e' = true.
Proof.
  unfold initialize. destruct (initialized e) eqn:Hi.
  - by intros [= <-].
  - destruct toneStart; [|done]. intros H.
    apply (inj Some) in H. by rewrite <- H.
Qed.

Lemma foldl_installTrack_transport ep n ts : ∀ a,
  transport_bpm (foldl (installTrack ep n) a ts) = transport_bpm a
  ∧ transport_started (foldl (installTrack ep n) a ts) = transport_started a.
Proof.
  induction ts as [|x ts IH]; intros a; [done|]. simpl.
  destruct (IH (installTrack ep n a x)) as [-> ->]. done.
Qed.

(** [initialize] does not touch the transport. *)
Lemma initialize_keeps_transport toneStart e e' :
  initialize toneStart e = Some e' →
  transport_bpm e' = transport_bpm e
  ∧ transport_started e' = transport_started e.
Proof.
  unfold initialize. destruct (initialized e).
  { intros H. apply (inj Some) in H. by rewrite <- H. }
  destruct toneStart; [|done]. intros H. apply (inj Some) in H.
  rewrite <- H. cbv zeta.
  cbn [transport_bpm transport_started set_initialized].
  match goal with
  | |- context [foldl (installTrack ?ep ?n) ?a ?ts] =>
      destruct (foldl_installTrack_transport ep n ts a) as [-> ->]
  end.
  done.
Qed.

(** [start] by cases: the engine [initialize] leaves, then the tempo. *)
Lemma start_unfold toneStart bpm e :
  start toneStart bpm e
  = match (if initialized e then Some e else initialize toneStart e) with
    | None => (e, false)
    | Some e1 =>
        if decide (bpm < 0) then (e1, false)
        else (set_transport bpm true e1, true)
    end.
Proof.
  unfold start, setTempo.
  destruct (if initialized e then Some e else initialize toneStart e);
    [|done].
  by destruct (decide (bpm < 0)).
Qed.


(** What [start] leaves behind: resolved, the transport runs at [bpm] on
    an initialised engine; rejected, the transport is as it was. *)
Lemma start_outcome toneStart bpm e :
  let s := start toneStart bpm e in
  (s.2 = true →
   0 ≤ bpm ∧ initialized s.1 = true ∧ transport_bpm s.1 = bpm
   ∧ transport_started s.1 = true)
  ∧ (s.2 = false →
     transport_bpm s.1 = transport_bpm e
     ∧ transport_started s.1 = transport_started e).
Proof.
  cbv zeta. rewrite start_unfold.
  destruct (if initialized e then Some e else initialize toneStart e)
    as [e1|] eqn:He1; [|by split].
  assert (initialized e1 = true ∧ transport_bpm e1 = transport_bpm e
          ∧ transport_started e1 = transport_started e) as (Hi1 & Hb & Hs).
  { destruct (initialized e) eqn:Hi.
    - apply (inj Some) in He1. by rewrite <- He1.
    - split; [by eapply initialize_initialized|].
      by eapply initialize_keeps_transport. }
  destruct (decide (bpm < 0)); cbn [fst snd]; split; try done.
  intros _. split; [lia | done].
Qed.

(** What [setBpm] leaves behind, accepted or refused. *)
Lemma setBpm_outcome bpm e :
  initialized (setBpm bpm e).1 = initialized e
  ∧ transport_started (setBpm bpm e).1 = transport_started e
  ∧ (0 ≤ bpm → transport_bpm (setBpm bpm e).1 = bpm)
  ∧ (0 ≤ transport_bpm e → 0 ≤ transport_bpm (setBpm bpm e).1).
Proof.
  unfold setBpm, setTempo. destruct (decide (bpm < 0)); cbn [fst snd].
  - split; [done|]. split; [done|]. split; [lia | done].
  - split; [done|]. split; [done|]. split; [done|]. simpl. lia.
Qed.



End Transport.

(** ** MIDI input routing ([MidiController]) *)

Section MidiRouting.
Import MidiController.

(** From note 36 upwards the track is the octave above C2 modulo 8. *)
Lemma noteToTrack_from_36 (note : Z) :
  36 ≤ note →
  noteToTrack note = ((note - 36) `div` 12) `mod` 8
  ∧ 0 ≤ noteToTrack note ≤ 7.
Proof.
  intros Hn. unfold noteToTrack, Js.floorDiv.
  assert (0 ≤ (note - 36) `div` 12) as Hq by (apply Z.div_pos; lia).
  rewrite Z.rem_mod_nonneg by lia.
  pose proof (Z.mod_pos_bound ((note - 36) `div` 12) 8). lia.
Qed.

(** Below note 36 the remainder keeps the sign of the negative octave. *)
Lemma noteToTrack_below_36 (note : Z) :
  0 ≤ note < 36 →
  noteToTrack note = (note - 36) `div` 12 ∧ -3 ≤ noteToTrack note ≤ -1.
Proof.
  intros Hn. unfold noteToTrack, Js.floorDiv.
  assert (-3 ≤ (note - 36) `div` 12 ≤ -1) as Hq.
  { split.
    - apply Z.div_le_lower_bound; lia.
    - assert ((note - 36) `div` 12 < 0); [|lia].
      apply Z.div_lt_upper_bound; lia. }
  assert ((note - 36) `div` 12 = -3 ∨ (note - 36) `div` 12 = -2
          ∨ (note - 36) `div` 12 = -1) as Hcases by lia.
  destruct Hcases as [-> | [-> | ->]];
    (split; [reflexivity | split; discriminate]).
Qed.

(** Every Note On is forwarded with 500 ms and the FM kind. *)
Lemma noteOnCall_fixed (note : Z) (velocity : float) (r : bool) :
  AudioEngine.c_duration (noteOnCall note velocity r) = 500%float
  ∧ AudioEngine.c_synthType (noteOnCall note velocity r) = AudioEngine.fm
  ∧ AudioEngine.c_note (noteOnCall note velocity r) = note
  ∧ AudioEngine.c_track (noteOnCall note velocity r) = noteToTrack note
  ∧ AudioEngine.c_returns (noteOnCall note velocity r) = r.
Proof. done. Qed.

(** For every velocity byte [b], [Math.floor(b / 127 * 127)] is [b] again:
    the MIDI layer's normalisation is undone exactly. *)
Lemma velocity_byte_round_trip (b : nat) :
  (b < 128)%nat →
  Js.floor (PrimFloat.mul (PrimFloat.div (Js.number (Z.of_nat b)) 127) 127)
  = Js.number (Z.of_nat b).
Proof.
  intros Hb.
  assert (In b (seq 0 128)) as Hin by (apply in_seq; lia).
  repeat (destruct Hin as [<-|Hin]; [vm_compute; reflexivity|]).
  destruct Hin.
Qed.

(** C2: at MIDI note 24 the router computes track -1, where
    [floor((24 - 36) / 12) mod 8] is 7; [triggerNote] documents its track
    parameter as 0-7, finds no voices for track -1, and the note is
    dropped. *)
Theorem C2_note_24_routed_to_track_minus_1 :
  let m := initialize true 1 (Some App.patternCallback) constructor in
  noteToTrack 24 = -1
  ∧ ((24 - 36) `div` 12) `mod` 8 = 7
  ∧ (∀ r, AudioEngine.c_track (noteOnCall 24 (100 / 127) r) = -1)
  ∧ (∀ r, handleNoteOn m AudioEngine.ready 24 (100 / 127) r
          = (AudioEngine.ready, []))
  ∧ (∀ r, (handleNoteOn m AudioEngine.ready 36 (100 / 127) r).2
          = [AudioEngine.TriggerAttackRelease (AudioEngine.FMSynth 0 0 0)
               (AudioEngine.Frequency 36) (500 / 1000) (100 / 127)]).
Proof.
  intros m. split; [reflexivity|]. split; [reflexivity|].
  split; [by intros []|].
  split; intros []; vm_compute; reflexivity.
Qed.

(** C8: for a Control Change on a controller number in 0..255 with a
    callback registered, if the tag of [value + 1] is the current pattern
    the controller is unchanged and the callback is not invoked; otherwise
    the current pattern becomes that tag and the callback is invoked
    exactly once with it.  Sending the same value again changes nothing and
    invokes nothing, so two identical messages invoke the callback at most
    once. *)
Theorem C8_pattern_switch_idempotent
    (m : t) (cc value : Z) (cb : Callback) :
  PATTERN_CC_START ≤ cc ≤ PATTERN_CC_END →
  patternCallback m = Some cb →
  let first := handleControlChange m cc value in
  let second := handleControlChange first.1 cc value in
  (hexId (value + 1) = currentPattern m → first = (m, []))
  ∧ (hexId (value + 1) ≠ currentPattern m →
     currentPattern first.1 = hexId (value + 1)
     ∧ first.2 = [Invoke cb (hexId (value + 1))])
  ∧ currentPattern first.1 = hexId (value + 1)
  ∧ second = (first.1, [])
  ∧ (length (first.2 ++ second.2) ≤ 1)%nat.
Proof.
  intros [Hlo Hhi] Hcb first second.
  assert (∀ m', patternCallback m' = Some cb →
            handleControlChange m' cc value
            = if decide (hexId (value + 1) = currentPattern m') then (m', [])
              else (mk (audioEngine m') (initialized m') (connected m')
                      (hexId (value + 1)) (patternCallback m'),
                    [Invoke cb (hexId (value + 1))])) as Hcc.
  { intros m' Hcb'. unfold handleControlChange.
    rewrite !bool_decide_eq_true_2 by done. simpl.
    destruct (decide (hexId (value + 1) = currentPattern m')) as [Heq|Hne].
    - by rewrite bool_decide_eq_true_2.
    - rewrite bool_decide_eq_false_2 by done. simpl. by rewrite Hcb'. }
  assert (currentPattern first.1 = hexId (value + 1)
          ∧ patternCallback first.1 = Some cb) as [Hcur Hcb1].
  { subst first. rewrite Hcc by done. by case_decide. }
  assert (second = (first.1, [])) as Hsecond.
  { subst second. rewrite Hcc by done. by rewrite decide_True. }
  split; [|split; [|split; [|split]]].
  - intros Heq. subst first. rewrite Hcc by done. by rewrite decide_True.
  - intros Hne. subst first. rewrite Hcc by done.
    by rewrite decide_False.
  - done.
  - done.
  - rewrite Hsecond. simpl. rewrite app_nil_r.
    subst first. rewrite Hcc by done. case_decide; simpl; lia.
Qed.

Lemma C8_pattern_switch_witness :
  let m := initialize true 1 (Some App.patternCallback) constructor in
  PATTERN_CC_START ≤ 7 ≤ PATTERN_CC_END
  ∧ patternCallback m = Some App.patternCallback
  ∧ (handleControlChange m 7 4).2 = [Invoke App.patternCallback "000x05"]
  ∧ (handleControlChange (handleControlChange m 7 4).1 7 4).2 = [].
Proof.
  intros m.
  assert (PATTERN_CC_START ≤ 7 ≤ PATTERN_CC_END) as Hcc
    by (unfold PATTERN_CC_START, PATTERN_CC_END; lia).
  split; [exact Hcc|]. split; [reflexivity|].
  destruct (C8_pattern_switch_idempotent m 7 4 App.patternCallback Hcc
              eq_refl) as (_ & Hne & _ & Hsecond & _).
  split.
  - apply Hne. vm_compute. discriminate.
  - exact (f_equal snd Hsecond).
Defined.

End MidiRouting.

(** ** The pattern store ([Sequencer] state) *)

Section PatternStore.
Import Sequencer.

Lemma find_none_all {A} (f : A → bool) (l : list A) :
  (∀ x, x ∈ l → f x = false) → List.find f l = None.
Proof.
  induction l as [|x l IH]; intros H; [done|]. simpl.
  rewrite H by left. apply IH. intros y Hy. apply H. by right.
Qed.

(** Mapping a bank with an id-preserving function commutes with the
    lookup by id. *)
Lemma find_fmap_id (g : Pattern → Pattern) (i : string) (ps : list Pattern) :
  (∀ p, id (g p) = id p) →
  List.find (fun p => bool_decide (id p = i)) (g <$> ps)
  = g <$> List.find (fun p => bool_decide (id p = i)) ps.
Proof.
  intros Hg. induction ps as [|p ps IH]; [done|]. simpl.
  rewrite Hg. by destruct (bool_decide (id p = i)).
Qed.

Lemma updatePattern_ids f cur track step ps :
  id <$> updatePattern f cur track step ps = id <$> ps.
Proof.
  unfold updatePattern. rewrite <- list_fmap_compose.
  apply list_fmap_ext. intros _ p _. simpl. by case_decide.
Qed.

Lemma applyEdits_ids eds : ∀ ps, id <$> applyEdits ps eds = id <$> ps.
Proof.
  induction eds as [|ed eds IH]; intros ps; [done|]. simpl.
  unfold applyEdits in IH. rewrite IH.
  destruct ed; apply updatePattern_ids.
Qed.

Lemma updateCell_lookup f track step tracks t s :
  (updateCell f track step tracks !! t) ≫= (fun row : list Step => row !! s)
  = (if decide (t = track ∧ s = step) then f else (fun x => x))
      <$> ((tracks !! t) ≫= (fun row : list Step => row !! s)).
Proof.
  unfold updateCell. rewrite list_lookup_imap.
  destruct (tracks !! t) as [row|]; [|done]. simpl.
  destruct (decide (t = track)) as [->|Hne].
  - rewrite list_lookup_imap.
    destruct (decide (s = step)) as [->|Hne].
    + by rewrite decide_True.
    + rewrite decide_False by (by intros [_ ?]).
      by destruct (row !! s).
  - rewrite decide_False by (by intros [? _]). by destruct (row !! s).
Qed.

(** What an edit of cell [(track, step)] of pattern [cur] does to the cell
    [(t, s)] of pattern [i]. *)
Lemma updatePattern_getStep f cur track step ps i t s :
  getStep (updatePattern f cur track step ps) i t s
  = (if decide (i = cur ∧ t = track ∧ s = step) then f else (fun x => x))
      <$> getStep ps i t s.
Proof.
  unfold getStep, updatePattern.
  rewrite find_fmap_id by (intros p; simpl; by case_decide).
  destruct (List.find _ ps) as [p|] eqn:Hfind; [|done]. simpl.
  apply find_some in Hfind as [_ Hid].
  apply bool_decide_eq_true_1 in Hid.
  destruct (decide (id p = cur)) as [Hcur|Hcur]; simpl.
  - pose proof (updateCell_lookup f track step (steps p) t s) as Hcell.
    simpl in Hcell. rewrite Hcell.
    destruct (decide (t = track ∧ s = step)) as [[-> ->]|Hne].
    + by rewrite decide_True by (by rewrite <- Hid).
    + rewrite decide_False by (intros (_ & ? & ?); by apply Hne).
      done.
  - rewrite decide_False by (intros (? & _); apply Hcur; congruence).
    by destruct (steps p !! t ≫= _).
Qed.

Lemma updateCell_twice f track step tracks :
  (∀ s, f (f s) = s) →
  updateCell f track step (updateCell f track step tracks) = tracks.
Proof.
  intros Hf. apply list_eq. intros t. unfold updateCell.
  rewrite !list_lookup_imap. destruct (tracks !! t) as [row|]; [|done].
  simpl. f_equal. case_decide; [|done].
  apply list_eq. intros s. rewrite !list_lookup_imap.
  destruct (row !! s) as [c|]; [|done]. simpl. f_equal.
  case_decide; [apply Hf | done].
Qed.

Lemma updatePattern_twice f cur track step ps :
  (∀ s, f (f s) = s) →
  updatePattern f cur track step (updatePattern f cur track step ps) = ps.
Proof.
  intros Hf. unfold updatePattern. rewrite <- list_fmap_compose.
  rewrite <- (list_fmap_id ps) at 2.
  apply list_fmap_ext. intros _ p _. simpl.
  destruct (decide (id p = cur)) as [Hid|Hid]; simpl.
  - rewrite decide_True by done. simpl.
    rewrite updateCell_twice by done. by destruct p.
  - by rewrite decide_False.
Qed.

(** C7: toggling the same cell twice restores the bank; one toggle
    replaces the addressed cell of the current pattern by the same cell
    with [active] negated, and no toggle changes the note or the velocity
    of any cell of any pattern. *)
Theorem C7_toggleStep_round_trip
    (ps : list Pattern) (cur : string) (track step : nat) :
  toggleStep cur track step (toggleStep cur track step ps) = ps
  ∧ getStep (toggleStep cur track step ps) cur track step
    = flipped <$> getStep ps cur track step
  ∧ (active <$> getStep (toggleStep cur track step ps) cur track step)
    = (negb ∘ active) <$> getStep ps cur track step
  ∧ ∀ i t s,
      (note <$> getStep (toggleStep cur track step ps) i t s)
        = note <$> getStep ps i t s
      ∧ (velocity <$> getStep (toggleStep cur track step ps) i t s)
        = velocity <$> getStep ps i t s
      ∧ getStep (toggleStep cur track step ps) i t s
        = (if decide (i = cur ∧ t = track ∧ s = step) then flipped
           else (fun c => c)) <$> getStep ps i t s.
Proof.
  assert (∀ i t s,
            getStep (toggleStep cur track step ps) i t s
            = (if decide (i = cur ∧ t = track ∧ s = step) then flipped
               else (fun c => c)) <$> getStep ps i t s) as Hget
    by (intros; apply updatePattern_getStep).
  split; [|split; [|split]].
  - apply updatePattern_twice. intros [n v k a]. unfold flipped. simpl.
    by rewrite negb_involutive.
  - by rewrite Hget, decide_True.
  - rewrite Hget, decide_True by done.
    by destruct (getStep ps cur track step).
  - intros i t s. rewrite Hget.
    destruct (getStep ps i t s) as [c|]; [|done].
    by case_decide.
Qed.

(** C4 as stated fails: the tag [000x00] is outside the bank, and looking
    it up yields pattern [000x01] instead of failing. *)
Lemma C4_lookup_counterexample :
  ("000x00" ∉ (id <$> defaultPatterns))
  ∧ activePattern defaultPatterns "000x00" = Some (emptyPattern 1)
  ∧ activePattern defaultPatterns "000x00" ≠ None.
Proof.
  split; [|split].
  - apply (bool_decide_unpack _). vm_compute. exact I.
  - vm_compute. reflexivity.
  - vm_compute. discriminate.
Qed.

(** C4 (amended): the lookup never fails.  In the preallocated bank, after
    any step edits, looking up a tag that no pattern carries returns the
    first pattern of the bank, which is the one tagged [000x01]. *)
Theorem C4_unknown_id_falls_back_to_first
    (eds : list Edit) (i : string) :
  i ∉ (id <$> defaultPatterns) →
  let bank := applyEdits defaultPatterns eds in
  ∃ p, activePattern bank i = Some p
       ∧ bank !! 0%nat = Some p
       ∧ id p = "000x01".
Proof.
  intros Hi bank.
  assert (id <$> bank = id <$> defaultPatterns) as Hids
    by apply applyEdits_ids.
  assert ((id <$> bank) !! 0%nat = Some "000x01") as Hhead
    by (rewrite Hids; vm_compute; reflexivity).
  rewrite list_lookup_fmap in Hhead.
  destruct (bank !! 0%nat) as [p|] eqn:Hp; [|done].
  exists p. injection Hhead as Hidp. split; [|done].
  unfold activePattern. rewrite find_none_all; [done|].
  intros q Hq. apply bool_decide_eq_false_2. intros Heq.
  apply Hi. rewrite <- Hids, <- Heq. by apply list_elem_of_fmap_2.
Qed.

Lemma C4_unknown_id_witness :
  ("000x00" ∉ (id <$> defaultPatterns))
  ∧ ∃ p, activePattern (applyEdits defaultPatterns [Toggle "000x02" 3 5])
           "000x00" = Some p
         ∧ id p = "000x01".
Proof.
  assert ("000x00" ∉ (id <$> defaultPatterns)) as Hout
    by (apply (bool_decide_unpack _); vm_compute; exact I).
  split; [exact Hout|].
  destruct (C4_unknown_id_falls_back_to_first [Toggle "000x02" 3 5]
              "000x00" Hout) as (p & Hp & _ & Hid).
  exists p. split; [exact Hp | exact Hid].
Defined.

End PatternStore.

(** ** The playback clock ([Sequencer] tick and [App] transport) *)

Section PlaybackClock.
Import Sequencer.

Lemma gridOk_rows (p : Pattern) :
  gridOk p = true →
  length (steps p) = NUM_TRACKS
  ∧ Forall (fun t => length t = NUM_STEPS) (steps p).
Proof.
  unfold gridOk. intros [H1 H2]%andb_prop. split.
  - by apply Nat.eqb_eq.
  - apply Forall_forall. intros t Ht.
    rewrite forallb_forall in H2. apply Nat.eqb_eq, H2.
    by apply list_elem_of_In.
Qed.

Lemma wellFormed_patterns (ps : list Pattern) :
  wellFormed ps = true → ps ≠ [] ∧ Forall (fun p => gridOk p = true) ps.
Proof.
  destruct ps as [|p ps]; [done|]. unfold wellFormed. intros H.
  split; [done|]. apply Forall_forall. intros q Hq.
  rewrite forallb_forall in H. apply H. by apply list_elem_of_In.
Qed.

(** In a well-formed bank the lookup of the current pattern always yields
    a pattern of the grid shape. *)
Lemma activePattern_wellFormed (ps : list Pattern) (cur : string) :
  wellFormed ps = true →
  ∃ p, activePattern ps cur = Some p ∧ p ∈ ps ∧ gridOk p = true.
Proof.
  intros [Hne Hall]%wellFormed_patterns. unfold activePattern.
  rewrite Forall_forall in Hall.
  destruct (List.find _ ps) as [p|] eqn:Hfind.
  - apply find_some in Hfind as [Hin _]. apply list_elem_of_In in Hin.
    exists p. auto.
  - destruct ps as [|p ps]; [done|]. exists p. simpl.
    split; [done|]. split; [left | apply Hall; left].
Qed.

(** The [forEach] of a tick is the sequence of calls of the column. *)
Lemma triggerTracks_calls d r next tracks : ∀ trackIndex e,
  Forall (fun t => (next < length t)%nat) tracks →
  triggerTracks d r next trackIndex tracks e
  = Some (AudioEngine.performAll e (stepCalls d r next trackIndex tracks)).
Proof.
  induction tracks as [|row rest IH]; intros trackIndex e Hall; [done|].
  apply Forall_cons in Hall as [Hrow Hrest]. simpl.
  destruct (lookup_lt_is_Some_2 row next Hrow) as [[n v k a] Hcell].
  rewrite Hcell. simpl.
  destruct a, n as [n|]; simpl.
  - unfold AudioEngine.perform. simpl.
    destruct (AudioEngine.triggerNote e n _ (Z.of_nat trackIndex) d _ _)
      as [e1 evs1].
    rewrite (IH (S trackIndex) e1 Hrest). simpl.
    by destruct (AudioEngine.performAll e1 _).
  - rewrite (IH (S trackIndex) e Hrest). simpl.
    by destruct (AudioEngine.performAll e _).
  - rewrite (IH (S trackIndex) e Hrest). simpl.
    by destruct (AudioEngine.performAll e _).
  - rewrite (IH (S trackIndex) e Hrest). simpl.
    by destruct (AudioEngine.performAll e _).
Qed.

(** The calls of a column are exactly its cells that are active and have
    a note, each with its own track index. *)
Lemma elem_of_stepCalls d r next tracks c : ∀ trackIndex,
  c ∈ stepCalls d r next trackIndex tracks ↔
  ∃ (j : nat) row n v k,
    tracks !! j = Some row
    ∧ row !! next = Some (mkStep (Some n) v k true)
    ∧ c = AudioEngine.mkCall n (Js.number v) (Z.of_nat (trackIndex + j)) d
            AudioEngine.fm (r (trackIndex + j)%nat).
Proof.
  induction tracks as [|row rest IH]; intros trackIndex; simpl.
  - split; [by intros ?%elem_of_nil | by intros (j & ? & ? & ? & ? & ? & _)].
  - rewrite elem_of_app, IH. split.
    + intros [Hhead | (j & r0 & n & v & k & Hj & Hcell & ->)].
      * destruct (row !! next) as [[[n|] v k [|]]|] eqn:Hcell;
          try by apply elem_of_nil in Hhead.
        apply list_elem_of_singleton in Hhead as ->.
        exists 0%nat, row, n, v, k. by rewrite Nat.add_0_r.
      * exists (S j), r0, n, v, k. split; [done|]. split; [done|].
        by rewrite Nat.add_succ_r.
    + intros ([|j] & r0 & n & v & k & Hj & Hcell & ->); simpl in Hj.
      * left. injection Hj as ->. rewrite Hcell, Nat.add_0_r.
        apply list_elem_of_singleton. done.
      * right. exists j, r0, n, v, k. split; [done|]. split; [done|].
        by rewrite Nat.add_succ_r.
Qed.

(** A tick on a pattern of the grid shape never fails; it moves to the
    next column and performs that column's calls. *)
Lemma tick_calls bpm returns p e prev :
  gridOk p = true →
  tick bpm returns (Some p) e prev
  = let next := ((prev + 1) `mod` NUM_STEPS)%nat in
    let r := AudioEngine.performAll e
               (stepCalls (stepDuration bpm) returns next 0 (steps p)) in
    Some (next, r.1, r.2).
Proof.
  intros [_ Hrows]%gridOk_rows. unfold tick.
  set (next := ((prev + 1) `mod` NUM_STEPS)%nat).
  assert (next < NUM_STEPS)%nat as Hnext
    by (apply Nat.mod_upper_bound; discriminate).
  cbn [mbind option_bind]. rewrite triggerTracks_calls.
  - cbn [mbind option_bind]. by destruct (AudioEngine.performAll e _).
  - eapply Forall_impl; [exact Hrows|]. by intros row ->.
Qed.

Lemma forallb_imap_length (g : nat → list Step → list Step)
    (rows : list (list Step)) :
  (∀ j row, length (g j row) = length row) →
  forallb (fun t => Nat.eqb (length t) NUM_STEPS) (imap g rows)
  = forallb (fun t => Nat.eqb (length t) NUM_STEPS) rows.
Proof.
  revert g. induction rows as [|row rows IH]; intros g Hg; [done|].
  simpl. rewrite Hg. f_equal. apply IH. intros j r. apply Hg.
Qed.

Lemma updateCell_gridOk f track step (p : Pattern) :
  gridOk (mkPattern (id p) (name p) (updateCell f track step (steps p)))
  = gridOk p.
Proof.
  unfold gridOk, updateCell. simpl. rewrite length_imap. f_equal.
  apply forallb_imap_length. intros j row.
  case_decide; [apply length_imap | done].
Qed.

(** Step edits keep the bank well formed. *)
Lemma updatePattern_wellFormed f cur track step (ps : list Pattern) :
  wellFormed (updatePattern f cur track step ps) = wellFormed ps.
Proof.
  assert (∀ l, forallb gridOk (updatePattern f cur track step l)
               = forallb gridOk l) as Hall.
  { induction l as [|p l IH]; [done|]. simpl. rewrite IH. f_equal.
    case_decide; [apply updateCell_gridOk | done]. }
  destruct ps as [|p ps]; [done|].
  unfold wellFormed. rewrite <- (Hall (p :: ps)). done.
Qed.

Lemma defaultPatterns_wellFormed : wellFormed defaultPatterns = true.
Proof. vm_compute. reflexivity. Qed.

(** Every action leaves a well-formed bank well formed, and none raises
    a [TypeError] on one. *)
Lemma step_wellFormed (w : App.World) (a : App.Action) :
  wellFormed (patterns (App.sequencer w)) = true →
  ∃ w' evs,
    App.step w a = Some (w', evs)
    ∧ wellFormed (patterns (App.sequencer w')) = true.
Proof.
  intros Hwf.
  assert (∀ b s, patterns (playbackEffect b s) = patterns s) as Heff
    by (intros [] s; done).
  destruct a; simpl.
  - eexists _, _. split; [done|]. simpl. by rewrite Heff.
  - destruct (App.isPlaying (App.app w)).
    + eexists _, _. split; [done|]. simpl. done.
    + destruct (AudioEngine.start _ _ _) as [e' []];
        eexists _, _; (split; [done|]); done.
  - eexists _, _. split; [done|]. done.
  - eexists _, _. split; [done|]. simpl. by rewrite Heff.
  - destruct (App.isPlaying (App.app w)); [|by eexists _, _].
    destruct (activePattern_wellFormed _ (App.currentPattern (App.app w)) Hwf)
      as (p & -> & _ & Hp).
    rewrite (tick_calls _ _ _ _ _ Hp). simpl. by eexists _, _.
  - eexists _, _. split; [done|]. simpl. rewrite Heff. simpl.
    unfold toggleStep. by rewrite updatePattern_wellFormed.
  - eexists _, _. split; [done|]. simpl. rewrite Heff. simpl.
    unfold setStepNote. by rewrite updatePattern_wellFormed.
  - by eexists _, _.
  - destruct (MidiController.connected _); [|by eexists _, _].
    destruct (MidiController.handleNoteOn _ _ _ _ _). by eexists _, _.
  - by eexists _, _.
  - destruct (MidiController.connected _); [|by eexists _, _].
    destruct (MidiController.handleControlChange _ _ _).
    eexists _, _. split; [done|]. simpl. by rewrite Heff.
  - destruct (MidiController.initialized _); by eexists _, _.
  - destruct (MidiController.initialized _); by eexists _, _.
Qed.

(** Every session from a freshly booted application runs to the end, in
    a world whose bank is well formed. *)
Lemma run_boot_wellFormed (acts : list App.Action) :
  ∃ w evs,
    App.run App.boot acts = Some (w, evs)
    ∧ wellFormed (patterns (App.sequencer w)) = true.
Proof.
  assert (∀ w, wellFormed (patterns (App.sequencer w)) = true →
            ∃ w' evs, App.run w acts = Some (w', evs)
                      ∧ wellFormed (patterns (App.sequencer w')) = true)
    as Hrun.
  { induction acts as [|a acts IH]; intros w Hwf.
    - by exists w, [].
    - destruct (step_wellFormed w a Hwf) as (w1 & evs1 & Hstep & Hwf1).
      destruct (IH w1 Hwf1) as (w2 & evs2 & Hrest & Hwf2).
      exists w2, (evs1 ++ evs2). simpl. rewrite Hstep. simpl.
      rewrite Hrest. done. }
  apply Hrun, defaultPatterns_wellFormed.
Qed.

(** One tick while playing, on a bank whose current pattern has the grid
    shape: the counter moves to the next column, whose calls are
    performed; nothing else changes. *)
Lemma tick_step (w : App.World) (r : nat → bool) (p : Pattern) :
  activePattern (patterns (App.sequencer w))
    (App.currentPattern (App.app w)) = Some p →
  gridOk p = true →
  App.isPlaying (App.app w) = true →
  let next := ((currentStep (App.sequencer w) + 1) `mod` NUM_STEPS)%nat in
  let res :=
    AudioEngine.performAll (App.audioEngine w)
      (stepCalls (stepDuration (App.bpm (App.app w))) r next 0 (steps p)) in
  App.step w (App.Tick r)
  = Some (App.mkWorld (App.app w) res.1 (App.midiController w)
            (mk (patterns (App.sequencer w)) next
               (selectedTrack (App.sequencer w))
               (selectedStep (App.sequencer w))), res.2).
Proof.
  intros Hactive Hp Hplay. cbn [App.step]. rewrite Hplay, Hactive.
  rewrite (tick_calls _ _ _ _ _ Hp). cbv zeta.
  cbn [mbind option_bind]. done.
Qed.

(** A run of ticks while playing: the counter moves one place round the
    sixteen steps per tick, and only the engine changes besides. *)
Lemma ticks_run (rs : list (nat → bool)) : ∀ w,
  wellFormed (patterns (App.sequencer w)) = true →
  App.isPlaying (App.app w) = true →
  (currentStep (App.sequencer w) < NUM_STEPS)%nat →
  ∃ e' evs,
    App.run w (App.Tick <$> rs)
    = Some (App.mkWorld (App.app w) e' (App.midiController w)
              (mk (patterns (App.sequencer w))
                 ((currentStep (App.sequencer w) + length rs)
                  `mod` NUM_STEPS)%nat
                 (selectedTrack (App.sequencer w))
                 (selectedStep (App.sequencer w))), evs).
Proof.
  induction rs as [|r rs IH]; intros w Hwf Hplay Hlt.
  - exists (App.audioEngine w), []. cbn [fmap list_fmap App.run length].
    rewrite Nat.add_0_r, Nat.mod_small by done.
    by destruct w as [a e m []].
  - destruct (activePattern_wellFormed _ (App.currentPattern (App.app w))
                Hwf) as (p & Hactive & _ & Hp).
    pose proof (tick_step w r p Hactive Hp Hplay) as Hstep.
    cbv zeta in Hstep.
    set (w1 := App.mkWorld _ _ _ _) in Hstep.
    destruct (IH w1) as (e2 & evs2 & Hrun).
    + done.
    + done.
    + subst w1. cbn [App.sequencer currentStep].
      apply Nat.mod_upper_bound. discriminate.
    + eexists e2, _. cbn [fmap list_fmap App.run].
      change (list_fmap _ _ App.Tick rs) with (App.Tick <$> rs).
      rewrite Hstep. cbn [mbind option_bind].
      rewrite Hrun. cbn [mbind option_bind].
      subst w1.
      cbn [App.sequencer App.app App.midiController currentStep patterns
           selectedTrack selectedStep].
      do 4 f_equal. unfold NUM_STEPS.
      rewrite Nat.Div0.add_mod_idemp_l. f_equal. simpl. lia.
Qed.

(** C10: on a tick, the engine is asked to trigger a cell of the new
    column exactly when the cell is active and has a note; a cell without
    a note, active or not, produces no call for its track, and a column
    without notes triggers nothing at all. *)
Theorem C10_pitchless_active_step_is_silent
    (bpm : Z) (returns : nat → bool) (p : Pattern) (e : AudioEngine.t)
    (prev : nat) :
  gridOk p = true →
  let next := ((prev + 1) `mod` NUM_STEPS)%nat in
  let calls := stepCalls (stepDuration bpm) returns next 0 (steps p) in
  tick bpm returns (Some p) e prev
  = Some (next, (AudioEngine.performAll e calls).1,
          (AudioEngine.performAll e calls).2)
  ∧ (∀ c, c ∈ calls ↔
       ∃ (track : nat) row n v k,
         steps p !! track = Some row
         ∧ row !! next = Some (mkStep (Some n) v k true)
         ∧ c = AudioEngine.mkCall n (Js.number v) (Z.of_nat track)
                 (stepDuration bpm) AudioEngine.fm (returns track))
  ∧ (∀ (track : nat) row s,
       steps p !! track = Some row → row !! next = Some s →
       note s = None →
       ∀ c, c ∈ calls → AudioEngine.c_track c ≠ Z.of_nat track)
  ∧ ((∀ (track : nat) row s,
        steps p !! track = Some row → row !! next = Some s →
        note s = None) →
     tick bpm returns (Some p) e prev = Some (next, e, [])).
Proof.
  intros Hp next calls.
  assert (∀ c, c ∈ calls ↔
            ∃ (track : nat) row n v k,
              steps p !! track = Some row
              ∧ row !! next = Some (mkStep (Some n) v k true)
              ∧ c = AudioEngine.mkCall n (Js.number v) (Z.of_nat track)
                      (stepDuration bpm) AudioEngine.fm (returns track))
    as Hmem.
  { intros c. subst calls. rewrite elem_of_stepCalls. done. }
  split; [by rewrite tick_calls | split; [exact Hmem | split]].
  - intros track row s Hrow Hcell Hnote c
      (track' & row' & n & v & k & Hrow' & Hcell' & ->)%Hmem Heq.
    simpl in Heq. apply Nat2Z.inj in Heq. subst track'.
    rewrite Hrow in Hrow'. injection Hrow' as <-.
    rewrite Hcell in Hcell'. injection Hcell' as ->. done.
  - intros Hquiet. rewrite tick_calls by done. cbv zeta.
    assert (stepCalls (stepDuration bpm) returns next 0 (steps p) = [])
      as Hnil.
    { apply elem_of_nil_inv.
      intros c (track & row & n & v & k & Hrow & Hcell & _)%Hmem.
      by specialize (Hquiet track row _ Hrow Hcell). }
    fold next. by rewrite Hnil.
Qed.

Lemma C10_pitchless_active_step_witness :
  let p :=
    mkPattern "000x01" "000x01"
      (<[0%nat := <[1%nat := mkStep None 100 0 true]>
                    (replicate NUM_STEPS emptyStep)]>
         (<[1%nat := <[1%nat := mkStep (Some 62) 100 0 true]>
                       (replicate NUM_STEPS emptyStep)]>
            (replicate NUM_TRACKS (replicate NUM_STEPS emptyStep)))) in
  gridOk p = true
  ∧ (snd <$> tick 120 (fun _ => true) (Some p) AudioEngine.ready 0)
    = Some [AudioEngine.TriggerAttackRelease (AudioEngine.FMSynth 0 1 0)
              (AudioEngine.Frequency 62)
              (stepDuration 120 / 1000) (100 / 127)].
Proof.
  intros p. split; [reflexivity|].
  destruct (C10_pitchless_active_step_is_silent 120 (fun _ => true) p
              AudioEngine.ready 0 eq_refl) as [Htick _].
  rewrite Htick. vm_compute. reflexivity.
Defined.




(** The same session, evaluated: with cells (0,0) on note 60 and (0,1) on
    note 62 both active, the first tick after the restart sounds note 62,
    and the sixteenth sounds note 60. *)
Example restart_session_sounds_step_1 :
  let bank :=
    setStepNote "000x01" 0 1 (Some 62)
      (toggleStep "000x01" 0 1
         (setStepNote "000x01" 0 0 (Some 60)
            (toggleStep "000x01" 0 0 defaultPatterns))) in
  let w :=
    App.mkWorld (App.mk true "000x01" 120) AudioEngine.ready
      MidiController.constructor (mk bank 5 0 None) in
  ((fun r : App.World * list AudioEngine.Event =>
      AudioEngine.ev_pitch <$> r.2)
     <$> App.run w ([App.Stop; App.PlayPause true]
                    ++ replicate 16 (App.Tick (fun _ => true))))
  = Some [AudioEngine.Frequency 62; AudioEngine.Frequency 60].
Proof. vm_compute. reflexivity. Qed.

End PlaybackClock.

(** ** The engine's life cycle ([initialize], [loadSample], [cleanup]) *)

Section EngineLifecycle.
Import AudioEngine EngineOps.

Lemma foldl_insert_lookup {V} (g : Z → V) (ts : list Z) :
  ∀ (m : gmap Z V) k,
  foldl (fun m t => <[t := g t]> m) m ts !! k
  = if decide (k ∈ ts) then Some (g k) else m !! k.
Proof.
  induction ts as [|t ts IH]; intros m k.
  - destruct (decide (k ∈ [])) as [H|_]; [by apply elem_of_nil in H | done].
  - cbn [foldl]. rewrite IH.
    destruct (decide (k ∈ ts)) as [Hin|Hout];
      destruct (decide (k ∈ t :: ts)) as [Hin'|Hout']; try done.
    + exfalso. apply Hout'. by right.
    + apply elem_of_cons in Hin' as [->|?]; [|done].
      by rewrite lookup_insert_eq.
    + rewrite lookup_insert_ne; [done|]. intros ->. apply Hout'. by left.
Qed.

Lemma elem_of_tracks (k : Z) : k ∈ tracks ↔ onTrack k.
Proof.
  unfold tracks, onTrack. rewrite list_elem_of_fmap. split.
  - intros (n & -> & Hn%elem_of_seq). lia.
  - intros Hk. exists (Z.to_nat k). split; [lia|]. apply elem_of_seq. lia.
Qed.

(** The loop of [initialize], field by field. *)
Lemma foldl_installTrack ep n ts : ∀ e,
  foldl (installTrack ep n) e ts
  = mk (masterVolume e) (initialized e)
      (foldl (fun m t => <[t := FMSynth ep t <$> seq 0 n]> m) (fmSynths e) ts)
      (foldl (fun m t => <[t := Synth ep t <$> seq 0 n]> m)
         (subtractiveSynths e) ts)
      (foldl (fun m t => <[t := drumVoice ep t]> m) (drumSynths e) ts)
      (samplers e) (voicePool e) (maxVoices e) (maxVoicesPerTrack e)
      (epoch e) (transport_bpm e) (transport_started e).
Proof.
  induction ts as [|t ts IH]; intros e; simpl.
  - by destruct e.
  - by rewrite IH.
Qed.

(** The engine a successful [initialize] builds from an uninitialised
    one. *)
Lemma initialize_fresh e :
  initialized e = false →
  ∃ e',
    initialize true e = Some e'
    ∧ initialized e' = true
    ∧ epoch e' = S (epoch e)
    ∧ maxVoicesPerTrack e' = maxVoicesPerTrack e
    ∧ voicePool e' = voicePool e
    ∧ samplers e' = samplers e
    ∧ transport_bpm e' = transport_bpm e
    ∧ transport_started e' = transport_started e
    ∧ ∀ track,
        fmSynths e' !! track
        = (if decide (onTrack track)
           then Some (FMSynth (epoch e) track <$> seq 0 (maxVoicesPerTrack e))
           else fmSynths e !! track)
        ∧ subtractiveSynths e' !! track
          = (if decide (onTrack track)
             then Some (Synth (epoch e) track <$> seq 0 (maxVoicesPerTrack e))
             else subtractiveSynths e !! track)
        ∧ drumSynths e' !! track
          = (if decide (onTrack track) then Some (drumVoice (epoch e) track)
             else drumSynths e !! track).
Proof.
  intros Hi. unfold initialize. rewrite Hi. eexists. split; [reflexivity|].
  rewrite foldl_installTrack. unfold set_initialized.
  cbn [masterVolume initialized fmSynths subtractiveSynths drumSynths
       samplers voicePool maxVoices maxVoicesPerTrack epoch transport_bpm
       transport_started].
  repeat (split; [reflexivity|]).
  intros track. rewrite !foldl_insert_lookup.
  destruct (decide (onTrack track)) as [Hon|Hoff].
  - rewrite !decide_True by (by apply elem_of_tracks). done.
  - rewrite !decide_False by (by rewrite elem_of_tracks). done.
Qed.

(** What one [triggerNote] can do: nothing at all; trigger the track's drum
    voice or sampler and leave the engine alone; or trigger a voice of a
    melodic pool and, if that call returns, advance the cursor of the
    track. *)
Lemma perform_shape e c :
  perform e c = (e, [])
  ∨ (initialized e = true
     ∧ ∃ voice pitch,
         ((c_synthType c = drum ∧ drumSynths e !! c_track c = Some voice)
          ∨ (c_synthType c = sampler
             ∧ samplers e !! c_track c = Some voice))
         ∧ perform e c
           = (e, [TriggerAttackRelease voice pitch
                    (PrimFloat.div (c_duration c) 1000)
                    (PrimFloat.div (c_velocity c) 127)]))
  ∨ (initialized e = true
     ∧ isMelodic (c_synthType c) = true
     ∧ ∃ voices i voice,
         polyTable (c_synthType c) e !! c_track c = Some voices
         ∧ Js.rem (default 0 (voicePool e !! c_track c))
             (Z.of_nat (length voices)) = Some i
         ∧ 0 ≤ i
         ∧ voices !! Z.to_nat i = Some voice
         ∧ perform e c
           = (if c_returns c
              then set_voicePool (<[c_track c := i + 1]> (voicePool e)) e
              else e,
              [TriggerAttackRelease voice (Frequency (c_note c))
                 (PrimFloat.div (c_duration c) 1000)
                 (PrimFloat.div (c_velocity c) 127)])).
Proof.
  destruct (initialized e) eqn:Hi; cycle 1.
  { left. unfold perform, triggerNote. by rewrite Hi. }
  destruct (isMelodic (c_synthType c)) eqn:Hk; cycle 1.
  { unfold perform, triggerNote. rewrite Hi. simpl.
    destruct (c_synthType c) eqn:Hkind; try discriminate.
    - destruct (drumSynths e !! c_track c) as [[]|] eqn:Hd; auto;
        right; left; (split; [done|]); eexists _, _; eauto.
    - destruct (samplers e !! c_track c) as [v|] eqn:Hs; auto.
      right; left. split; [done|]. eexists _, _; eauto. }
  rewrite (perform_melodic e c Hi Hk). unfold triggerPoly.
  destruct (polyTable (c_synthType c) e !! c_track c) as [voices|] eqn:Ht;
    simpl; cycle 1.
  { left. unfold Js.rem. simpl. auto. }
  destruct (Js.rem _ _) as [i|] eqn:Hrem; simpl; cycle 1.
  { left. auto. }
  destruct (decide (0 ≤ i)) as [Hpos|Hneg]; cycle 1.
  { left. auto. }
  destruct (voices !! Z.to_nat i) as [voice|] eqn:Hv; cycle 1.
  { left. auto. }
  right; right. split; [done|]. split; [done|]. by exists voices, i, voice.
Qed.

Lemma Inv_constructor : Inv constructor.
Proof.
  assert (∀ k, voicePool constructor !! k
               = if decide (k ∈ tracks) then Some 0 else None) as Hvp.
  { intros k. unfold constructor.
    cbn [voicePool]. by rewrite (foldl_insert_lookup (fun _ => 0)). }
  split.
  - done.
  - intros track Hon%elem_of_tracks. exists 0. rewrite Hvp.
    by rewrite decide_True.
  - intros track Hoff. rewrite Hvp.
    rewrite decide_False by (by rewrite elem_of_tracks). done.
  - done.
  - intros track v H. done.
Qed.

Lemma Inv_initialize toneStart e :
  Inv e → Inv (default e (initialize toneStart e)).
Proof.
  intros HI. destruct (initialized e) eqn:Hi.
  { unfold initialize. by rewrite Hi. }
  destruct toneStart; cycle 1.
  { unfold initialize. by rewrite Hi. }
  destruct (initialize_fresh e Hi)
    as (e' & -> & Hi' & Hep & Hmax & Hvp & Hsam & _ & _ & Htab).
  destruct HI as [Imax Icur Iout Itab Isam]. simpl. split.
  - congruence.
  - intros track Hon. rewrite Hvp. by apply Icur.
  - intros track Hoff. destruct (Htab track) as (Hf & Hs & Hd).
    rewrite Hvp, Hf, Hs, Hd. rewrite !decide_False by done. by apply Iout.
  - intros _ track Hon. destruct (Htab track) as (Hf & Hs & Hd).
    exists (epoch e). rewrite Hf, Hs, Hd, Hep, Imax.
    rewrite !decide_True by done. split; [lia | done].
  - intros track v Hv. rewrite Hsam in Hv.
    destruct (Isam track v Hv) as (ep & -> & Hlt). exists ep.
    split; [done | lia].
Qed.

(** Operations that only touch the transport or the initialised flag
    downwards keep the invariant. *)
Lemma Inv_set_transport bpm started e :
  Inv e → Inv (set_transport bpm started e).
Proof. intros [? ? ? ? ?]. by split. Qed.

Lemma Inv_cleanup e : Inv e → Inv (cleanup e).
Proof. intros [? ? ? ? ?]. by split. Qed.

Lemma Inv_loadSample track e : Inv e → Inv (loadSample track e).
Proof.
  intros HI. unfold loadSample. destruct (initialized e) eqn:Hi; [|done].
  destruct HI as [Imax Icur Iout Itab Isam]. simpl. split; try done.
  - intros Hi' t Hon. destruct (Itab Hi t Hon) as (ep & Hlt & H).
    exists ep. simpl. split; [lia | done].
  - intros t v. simpl. destruct (decide (track = t)) as [->|Hne].
    + rewrite lookup_insert_eq. intros [= <-]. exists (epoch e).
      split; [done | lia].
    + rewrite lookup_insert_ne by done. intros Hv.
      destruct (Isam t v Hv) as (ep & -> & Hlt). exists ep.
      split; [done | lia].
Qed.

Lemma Inv_perform e c : Inv e → Inv (perform e c).1.
Proof.
  intros HI.
  destruct (perform_shape e c)
    as [-> | [(_ & voice & pitch & _ & ->)
             | (Hi & Hk & voices & i & voice & Ht & Hrem & Hpos & Hv & ->)]];
    [done | done |].
  destruct (c_returns c); [|done].
  destruct HI as [Imax Icur Iout Itab Isam].
  assert (onTrack (c_track c)) as Hon.
  { destruct (decide (onTrack (c_track c))) as [|Hoff]; [done|].
    destruct (Iout _ Hoff) as (_ & Hf & Hs & _).
    destruct (c_synthType c); simpl in Ht, Hk; congruence. }
  destruct (Itab Hi _ Hon) as (ep & _ & Hf & Hs & _).
  assert (length voices = 4%nat) as Hlen.
  { destruct (c_synthType c); simpl in Ht; try discriminate;
      rewrite Ht in *; simplify_eq; by rewrite length_fmap, length_seq. }
  destruct (Icur _ Hon) as (cur & Hcur & Hbound).
  rewrite Hcur, Hlen in Hrem. unfold Js.rem in Hrem. simpl in Hrem.
  injection Hrem as <-.
  assert (0 ≤ Z.rem cur 4 < 4) as Hi4
    by (rewrite Z.rem_mod_nonneg by lia; apply Z.mod_pos_bound; lia).
  simpl. split; simpl; try done.
  - intros t Hon'. destruct (decide (c_track c = t)) as [->|Hne].
    + rewrite lookup_insert_eq. eexists. split; [done | lia].
    + rewrite lookup_insert_ne by done. by apply Icur.
  - intros t Hoff. rewrite lookup_insert_ne by (by intros <-).
    by apply Iout.
Qed.

Lemma Inv_apply e op : Inv e → Inv (apply e op).1.
Proof.
  intros HI. destruct op; simpl.
  - by apply Inv_initialize.
  - rewrite start_unfold. destruct (initialized e) eqn:Hi; simpl.
    + case_decide; [done | by apply Inv_set_transport].
    + pose proof (Inv_initialize toneStart e HI) as HI'.
      destruct (initialize toneStart e); simpl; [|done].
      case_decide; [done | by apply Inv_set_transport].
  - by apply Inv_set_transport.
  - unfold setBpm, setTempo.
    case_decide; [done | by apply Inv_set_transport].
  - by apply Inv_perform.
  - by apply Inv_loadSample.
  - by apply Inv_cleanup.
Qed.

Lemma Inv_run ops : ∀ e, Inv e → Inv (run e ops).1.
Proof.
  induction ops as [|op ops IH]; intros e HI; [done|]. simpl.
  pose proof (Inv_apply e op HI) as HI1.
  destruct (apply e op) as [e1 evs1]. specialize (IH e1 HI1).
  by destruct (run e1 ops).
Qed.

Lemma Inv_reachable ops : Inv (run constructor ops).1.
Proof. apply Inv_run, Inv_constructor. Qed.

(** The voice behind an event of a trigger that is not a sampler trigger
    was created by the initialisation that filled the track's tables. *)
Lemma perform_voice_epoch e c ev :
  Inv e →
  c_synthType c ≠ sampler →
  ev ∈ (perform e c).2 →
  initialized e = true
  ∧ onTrack (c_track c)
  ∧ ∃ ep, drumSynths e !! c_track c = Some (drumVoice ep (c_track c))
          ∧ voiceEpoch (ev_voice ev) = ep
          ∧ (ep < epoch e)%nat.
Proof.
  intros HI Hkind Hev.
  assert (∀ ep, voiceEpoch (drumVoice ep (c_track c)) = ep) as Hdrum
    by (intros ep; unfold drumVoice; by case_decide).
  destruct (perform_shape e c)
    as [Hp | [(Hi & voice & pitch & Hwhich & Hp)
             | (Hi & Hk & voices & i & voice & Ht & Hrem & Hpos & Hv & Hp)]];
    rewrite Hp in Hev; simpl in Hev.
  - by apply elem_of_nil in Hev.
  - apply list_elem_of_singleton in Hev as ->. simpl.
    destruct Hwhich as [[_ Hd] | [Hs _]]; [|done].
    assert (onTrack (c_track c)) as Hon.
    { destruct (decide (onTrack (c_track c))) as [|Hoff]; [done|].
      destruct (inv_outside e HI _ Hoff) as (_ & _ & _ & Hnone). congruence. }
    destruct (inv_tables e HI Hi _ Hon) as (ep & Hlt & _ & _ & Hd').
    split; [done|]. split; [done|]. exists ep. split; [done|].
    split; [|done]. rewrite Hd' in Hd. injection Hd as <-. apply Hdrum.
  - apply list_elem_of_singleton in Hev as ->. simpl.
    assert (onTrack (c_track c)) as Hon.
    { destruct (decide (onTrack (c_track c))) as [|Hoff]; [done|].
      destruct (inv_outside e HI _ Hoff) as (_ & Hf & Hs & _).
      destruct (c_synthType c); simpl in Ht, Hk; congruence. }
    destruct (inv_tables e HI Hi _ Hon) as (ep & Hlt & Hf & Hs & Hd).
    split; [done|]. split; [done|]. exists ep. split; [done|].
    split; [|done]. apply list_elem_of_lookup_2 in Hv.
    destruct (c_synthType c); simpl in Ht, Hk; try discriminate;
      rewrite Ht in *; simplify_eq;
      apply list_elem_of_fmap in Hv as (slot & -> & _); done.
Qed.

(** X1: [initialize] on an engine that is not initialised: with a backend that
    starts it fills, for each of the eight tracks, an FM pool and a
    subtractive pool of [maxVoicesPerTrack] fresh voices and one drum voice
    (the kick below track 4, the snare from 4 on), leaves cursors and
    samplers alone, and makes a further [initialize] a no-op; with a backend
    that does not start it fails. *)
Theorem initialize_installs_pools (e : t) (track : Z) (again : bool) :
  initialized e = false →
  0 ≤ track < 8 →
  ∃ e',
    initialize true e = Some e'
    ∧ initialized e' = true
    ∧ fmSynths e' !! track
      = Some (FMSynth (epoch e) track <$> seq 0 (maxVoicesPerTrack e))
    ∧ subtractiveSynths e' !! track
      = Some (Synth (epoch e) track <$> seq 0 (maxVoicesPerTrack e))
    ∧ drumSynths e' !! track
      = Some (if decide (track < 4) then MembraneSynth (epoch e) track
              else NoiseSynth (epoch e) track)
    ∧ voicePool e' = voicePool e
    ∧ samplers e' = samplers e
    ∧ initialize again e' = Some e'
    ∧ initialize false e = None.
Proof.
  intros Hi Hon.
  destruct (initialize_fresh e Hi)
    as (e' & He' & Hi' & _ & _ & Hvp & Hsam & _ & _ & Htab).
  destruct (Htab track) as (Hf & Hs & Hd).
  rewrite decide_True in Hf by done. rewrite decide_True in Hs by done.
  rewrite decide_True in Hd by done.
  exists e'. repeat (split; [done|]). split.
  - unfold initialize. by rewrite Hi'.
  - unfold initialize. by rewrite Hi.
Qed.

Lemma initialize_installs_pools_witness :
  initialized constructor = false
  ∧ 0 ≤ 5 < 8
  ∧ ∃ e', initialize true constructor = Some e'
          ∧ drumSynths e' !! 5 = Some (NoiseSynth 0 5).
Proof.
  split; [reflexivity|]. split; [lia|].
  destruct (initialize_installs_pools constructor 5 true)
    as (e' & He' & _ & _ & _ & Hd & _); [reflexivity | lia |].
  exists e'. split; [exact He' | exact Hd].
Defined.

(** X2: Whatever methods are called on a new engine, in any order, the cursor
    table keeps exactly the keys 0..7 and every cursor stays within 0..4. *)
Theorem engine_cursors_stay_in_range (ops : list Op) (track : Z) :
  let e := (run constructor ops).1 in
  (voicePool e !! track = None ↔ ¬ (0 ≤ track < 8))
  ∧ ∀ c, voicePool e !! track = Some c → 0 ≤ c ≤ 4.
Proof.
  intros e. pose proof (Inv_reachable ops) as HI. fold e in HI.
  destruct (decide (onTrack track)) as [Hon|Hoff].
  - destruct (inv_cursor e HI _ Hon) as (c & Hc & Hb). split.
    + rewrite Hc. split; [done | by intros []].
    + intros c'. rewrite Hc. by intros [= <-].
  - destruct (inv_outside e HI _ Hoff) as (Hnone & _). split.
    + by rewrite Hnone.
    + intros c. by rewrite Hnone.
Qed.

Lemma Inv_off_track_trigger e c :
  Inv e →
  ¬ onTrack (c_track c) →
  c_synthType c ≠ sampler →
  perform e c = (e, []).
Proof.
  intros HI Hoff Hkind.
  destruct (perform e c) as [e1 evs] eqn:Hp.
  destruct evs as [|ev evs].
  - destruct (perform_shape e c)
      as [Hp' | [(_ & ? & ? & _ & Hp')
               | (_ & _ & ? & ? & ? & _ & _ & _ & _ & Hp')]];
      rewrite Hp in Hp'; by injection Hp'.
  - destruct (perform_voice_epoch _ c ev HI Hkind) as (_ & Hon & _).
    + rewrite Hp. left.
    + by destruct Hoff.
Qed.

(** X3: A trigger on a track number outside 0..7 is silently ignored for the
    FM, subtractive and drum kinds, in every state the engine can reach: no
    voice sounds and nothing changes. *)
Theorem trigger_off_track_is_ignored (ops : list Op) (c : Call) :
  ¬ (0 ≤ c_track c < 8) →
  c_synthType c ≠ sampler →
  perform (run constructor ops).1 c = ((run constructor ops).1, []).
Proof.
  intros Hoff Hkind. apply Inv_off_track_trigger; [|done..].
  apply Inv_reachable.
Qed.

Lemma trigger_off_track_is_ignored_witness :
  let c := mkCall 24 100 (-1) 500 fm true in
  ¬ (0 ≤ c_track c < 8)
  ∧ c_synthType c ≠ sampler
  ∧ perform (run constructor [Initialize true]).1 c
    = ((run constructor [Initialize true]).1, []).
Proof.
  intros c.
  assert (¬ (0 ≤ c_track c < 8)) as Hoff by (simpl; lia).
  assert (c_synthType c ≠ sampler) as Hkind by discriminate.
  split; [exact Hoff|]. split; [exact Hkind|].
  exact (trigger_off_track_is_ignored [Initialize true] c Hoff Hkind).
Defined.

(** X4: In every reachable initialised state, a drum trigger on a track 0..7
    sounds exactly the track's one drum voice and changes nothing: below
    track 4 the membrane synth at the note's frequency, from track 4 on the
    noise synth, which is given no pitch. *)
Theorem drum_trigger_dispatch (ops : list Op) (note : Z) (velocity : float)
    (track : Z) (duration : float) (r : bool) :
  let e := (run constructor ops).1 in
  initialized e = true →
  0 ≤ track < 8 →
  ∃ ep,
    triggerNote e note velocity track duration drum r
    = (e, [if decide (track < 4)
           then TriggerAttackRelease (MembraneSynth ep track) (Frequency note)
                  (duration / 1000) (velocity / 127)
           else TriggerAttackRelease (NoiseSynth ep track) Unpitched
                  (duration / 1000) (velocity / 127)]).
Proof.
  intros e Hi Hon. pose proof (Inv_reachable ops) as HI. fold e in HI.
  destruct (inv_tables e HI Hi track Hon) as (ep & _ & _ & _ & Hd).
  exists ep. unfold triggerNote. rewrite Hi, Hd. unfold drumVoice.
  by case_decide.
Qed.

Lemma drum_trigger_dispatch_witness :
  let e := (run constructor [Initialize true]).1 in
  initialized e = true
  ∧ 0 ≤ 6 < 8
  ∧ ∃ ep,
      triggerNote e 40 100 6 125 drum true
      = (e, [TriggerAttackRelease (NoiseSynth ep 6) Unpitched
               (125 / 1000) (100 / 127)]).
Proof.
  intros e. split; [reflexivity|]. split; [lia|].
  destruct (drum_trigger_dispatch [Initialize true] 40 100 6 125 true)
    as (ep & Hep); [reflexivity | lia |].
  exists ep. exact Hep.
Defined.

Lemma Inv_melodic_trigger e c :
  Inv e →
  initialized e = true →
  isMelodic (c_synthType c) = true →
  onTrack (c_track c) →
  ∃ ep cursor,
    voicePool e !! c_track c = Some cursor
    ∧ 0 ≤ cursor ≤ 4
    ∧ (perform e c).2
      = [TriggerAttackRelease
           (match c_synthType c with fm => FMSynth | _ => Synth end
              ep (c_track c) (Z.to_nat (cursor `mod` 4)))
           (Frequency (c_note c)) (c_duration c / 1000)
           (c_velocity c / 127)]
    ∧ (c_returns c = true →
       voicePool (perform e c).1 !! c_track c = Some (cursor `mod` 4 + 1))
    ∧ (c_returns c = false → (perform e c).1 = e).
Proof.
  intros HI Hi Hk Hon.
  destruct (inv_tables e HI Hi _ Hon) as (ep & _ & Hf & Hs & _).
  destruct (inv_cursor e HI _ Hon) as (cursor & Hcur & Hb).
  exists ep, cursor. split; [done|]. split; [done|].
  pose proof (Z.mod_pos_bound cursor 4) as Hm.
  set (make := match c_synthType c with fm => FMSynth | _ => Synth end).
  assert (polyTable (c_synthType c) e !! c_track c
          = Some (make ep (c_track c) <$> seq 0 4)) as Ht.
  { subst make. destruct (c_synthType c); try discriminate; simpl; done. }
  rewrite (perform_melodic e c Hi Hk).
  destruct (triggerPoly_step (polyTable (c_synthType c) e) e (c_note c)
              (c_duration c / 1000) (c_velocity c / 127)
              (c_track c) _ cursor (c_returns c) Ht) as (voice & Hv & ->).
  - done.
  - by rewrite Hcur.
  - lia.
  - rewrite length_fmap, length_seq in Hv. change (Z.of_nat 4) with 4 in Hv.
    rewrite list_lookup_fmap, lookup_seq_lt in Hv by lia.
    injection Hv as <-. cbn [fst snd]. split; [done|]. split.
    + intros ->. simpl. by rewrite lookup_insert_eq.
    + by intros ->.
Qed.

(** X5: In every reachable initialised state, an FM or subtractive trigger on
    a track 0..7 always reaches the backend: it makes exactly one call, on
    the voice at slot [cursor mod 4] of the track's pool of that kind.  When
    that call returns the cursor is left at that slot plus one; when it
    throws the engine is left exactly as it was, so the next trigger on the
    track takes the same slot again. *)
Theorem melodic_trigger_uses_next_slot (ops : list Op) (c : Call) :
  let e := (run constructor ops).1 in
  initialized e = true →
  isMelodic (c_synthType c) = true →
  0 ≤ c_track c < 8 →
  ∃ ep cursor,
    voicePool e !! c_track c = Some cursor
    ∧ (perform e c).2
      = [TriggerAttackRelease
           (match c_synthType c with fm => FMSynth | _ => Synth end
              ep (c_track c) (Z.to_nat (cursor `mod` 4)))
           (Frequency (c_note c)) (c_duration c / 1000)
           (c_velocity c / 127)]
    ∧ (c_returns c = true →
       voicePool (perform e c).1 !! c_track c = Some (cursor `mod` 4 + 1))
    ∧ (c_returns c = false → (perform e c).1 = e).
Proof.
  intros e Hi Hk Hon.
  destruct (Inv_melodic_trigger e c (Inv_reachable ops) Hi Hk Hon)
    as (ep & cursor & Hcur & _ & Hevs & Hnext).
  by exists ep, cursor.
Qed.

Lemma melodic_trigger_uses_next_slot_witness :
  let ops := [Initialize true; Trigger (mkCall 60 90 3 125 fm true)] in
  let e := (run constructor ops).1 in
  let c := mkCall 64 100 3 125 subtractive false in
  initialized e = true
  ∧ isMelodic (c_synthType c) = true
  ∧ 0 ≤ c_track c < 8
  ∧ ∃ ep cursor,
      voicePool e !! 3 = Some cursor
      ∧ voicesOf (perform e c).2 = [Synth ep 3 (Z.to_nat (cursor `mod` 4))]
      ∧ (perform e c).1 = e.
Proof.
  intros ops e c. split; [reflexivity|]. split; [reflexivity|].
  split; [simpl; lia|].
  destruct (melodic_trigger_uses_next_slot ops c)
    as (ep & cursor & Hcur & Hevs & _ & Hthrown);
    [reflexivity | reflexivity | simpl; lia |].
  exists ep, cursor. split; [exact Hcur|].
  split; [exact (f_equal voicesOf Hevs) | exact (Hthrown eq_refl)].
Defined.

(** X6: Loading a sample on an initialised engine makes the next sampler
    trigger on that track sound the new sampler with the raw note number,
    and changes what no other trigger does: every call on another track or
    of another kind triggers the same voices as before the load. *)
Theorem loadSample_then_trigger (e : t) (track note : Z) (velocity : float)
    (duration : float) (r : bool) :
  initialized e = true →
  triggerNote (loadSample track e) note velocity track duration sampler r
  = (loadSample track e,
     [TriggerAttackRelease (Sampler (epoch e) track) (Midi note)
        (duration / 1000) (velocity / 127)])
  ∧ ∀ c, (c_track c ≠ track ∨ c_synthType c ≠ sampler) →
      (perform (loadSample track e) c).2 = (perform e c).2.
Proof.
  intros Hi. unfold loadSample. rewrite Hi. simpl. split.
  - unfold triggerNote. simpl. rewrite Hi. simpl.
    by rewrite lookup_insert_eq.
  - intros c Hother. unfold perform, triggerNote, triggerPoly. simpl.
    rewrite Hi. simpl.
    destruct (c_synthType c) eqn:Hk; simpl.
    + by repeat case_match.
    + by repeat case_match.
    + by repeat case_match.
    + destruct Hother as [Hne|Hne]; [|done].
      rewrite lookup_insert_ne by done. by repeat case_match.
Qed.

Lemma loadSample_then_trigger_witness :
  initialized ready = true
  ∧ voicesOf
      (triggerNote (loadSample 2 ready) 60 100 2 125 sampler true).2
    = [Sampler 1 2].
Proof.
  split; [reflexivity|].
  destruct (loadSample_then_trigger ready 2 60 100 125 true) as [H _];
    [reflexivity|].
  exact (f_equal (fun r => voicesOf r.2) H).
Defined.

(** X7: Tempo changes and stopping never disturb voice allocation: a trigger
    after [setBpm] (accepted or refused) or [stop] sounds the same voices
    and moves the cursors the same way as the trigger before it, and a
    trigger never touches the transport nor changes whether a tempo is
    accepted. *)
Theorem transport_does_not_disturb_allocation (e : t) (c : Call) (bpm : Z) :
  perform (setBpm bpm e).1 c
  = ((setBpm bpm (perform e c).1).1, (perform e c).2)
  ∧ (setBpm bpm (perform e c).1).2 = (setBpm bpm e).2
  ∧ perform (stop e) c = (stop (perform e c).1, (perform e c).2)
  ∧ transport_bpm (perform e c).1 = transport_bpm e
  ∧ transport_started (perform e c).1 = transport_started e.
Proof.
  assert (∀ b s, perform (set_transport b s e) c
                 = (set_transport b s (perform e c).1, (perform e c).2)
                 ∧ transport_bpm (perform e c).1 = transport_bpm e
                 ∧ transport_started (perform e c).1 = transport_started e)
    as H.
  { intros b s.
    destruct (perform_shape e c)
      as [Hp | [(Hi & voice & pitch & Hwhich & Hp)
               | (Hi & Hk & voices & i & voice & Ht & Hrem & Hpos & Hv & Hp)]].
    - rewrite Hp. simpl. split; [|done].
      unfold perform, triggerNote, triggerPoly in *. simpl.
      destruct (initialized e); simpl in *; [|done].
      destruct (c_synthType c); simpl in *; repeat case_match;
        simplify_eq; done.
    - rewrite Hp. simpl. split; [|done].
      unfold perform, triggerNote in *. simpl. rewrite Hi in *. simpl in *.
      destruct Hwhich as [[Hk Hd] | [Hk Hs]]; rewrite Hk in *; simpl in *.
      + rewrite Hd in *. destruct voice; simplify_eq; done.
      + rewrite Hs in *. by simplify_eq.
    - rewrite Hp. cbn [fst snd]. split; [|by destruct (c_returns c)].
      rewrite perform_melodic by done. unfold triggerPoly.
      replace (polyTable (c_synthType c) (set_transport b s e))
        with (polyTable (c_synthType c) e) by (by destruct (c_synthType c)).
      simpl. rewrite Ht. simpl. rewrite Hrem. simpl.
      rewrite decide_True by done. rewrite Hv. by destruct (c_returns c). }
  destruct (H bpm (transport_started e)) as (H1 & Hb & Hs).
  destruct (H (transport_bpm e) false) as (H2 & _).
  split; [|split].
  - unfold setBpm, setTempo. case_decide; simpl.
    + by destruct (perform e c).
    + by rewrite Hs.
  - unfold setBpm, setTempo. by case_decide.
  - split; [unfold stop; by rewrite Hb|]. done.
Qed.

Lemma drumVoice_epoch_inj ep ep' track :
  drumVoice ep track = drumVoice ep' track → ep = ep'.
Proof. unfold drumVoice. case_decide; congruence. Qed.

(** X8: [cleanup] followed by a new [initialize], from any reachable
    initialised state: between the two every trigger is a no-op; afterwards
    the cursors are where they were, FM, subtractive and drum triggers reach
    only voices created by the new initialisation, never one that sounded
    before the cleanup, but a sampler trigger reaches the very sampler
    object that was loaded before the cleanup. *)
Theorem reinitialize_after_cleanup (ops : list Op) :
  let e := (run constructor ops).1 in
  initialized e = true →
  ∃ e2,
    initialize true (cleanup e) = Some e2
    ∧ initialized e2 = true
    ∧ voicePool e2 = voicePool e
    ∧ (∀ c, perform (cleanup e) c = (cleanup e, []))
    ∧ (∀ c ev ev',
         c_synthType c ≠ sampler →
         ev ∈ (perform e c).2 → ev' ∈ (perform e2 c).2 →
         (voiceEpoch (ev_voice ev) < voiceEpoch (ev_voice ev'))%nat
         ∧ ev_voice ev ≠ ev_voice ev')
    ∧ (∀ c, c_synthType c = sampler →
         (perform e2 c).2 = (perform e c).2).
Proof.
  intros e Hi. pose proof (Inv_reachable ops) as HI. fold e in HI.
  assert (initialized (cleanup e) = false) as Hoff by done.
  destruct (initialize_fresh (cleanup e) Hoff)
    as (e2 & He2 & Hi2 & _ & _ & Hvp & Hsam & _ & _ & Htab).
  assert (Inv e2) as HI2.
  { pose proof (Inv_initialize true _ (Inv_cleanup e HI)) as H.
    by rewrite He2 in H. }
  exists e2. split; [exact He2|]. split; [exact Hi2|]. split; [exact Hvp|].
  split; [|split].
  - intros c. unfold perform, triggerNote. by rewrite Hoff.
  - intros c ev ev' Hkind Hev Hev'.
    destruct (perform_voice_epoch e c ev HI Hkind Hev)
      as (_ & Hon & ep & _ & Hep & Hlt).
    destruct (perform_voice_epoch e2 c ev' HI2 Hkind Hev')
      as (_ & _ & ep2 & Hd2 & Hep2 & _).
    destruct (Htab (c_track c)) as (_ & _ & Hd).
    rewrite decide_True in Hd by done. rewrite Hd in Hd2.
    injection Hd2 as Heq%drumVoice_epoch_inj.
    assert (voiceEpoch (ev_voice ev) < voiceEpoch (ev_voice ev'))%nat as Hless.
    { rewrite Hep, Hep2, <- Heq. exact Hlt. }
    split; [done|]. intros Hsame. rewrite Hsame in Hless. lia.
  - intros c Hkind. unfold perform, triggerNote.
    rewrite Hi, Hi2, Hkind, Hsam. simpl.
    by destruct (samplers e !! c_track c).
Qed.

Lemma reinitialize_after_cleanup_witness :
  let ops := [Initialize true; LoadSample 2] in
  let e := (run constructor ops).1 in
  initialized e = true
  ∧ ∃ e2,
      initialize true (cleanup e) = Some e2
      ∧ voicesOf (perform e2 (mkCall 60 100 2 125 sampler true)).2
        = [Sampler 1 2].
Proof.
  intros ops e. split; [reflexivity|].
  destruct (reinitialize_after_cleanup ops)
    as (e2 & He2 & _ & _ & _ & _ & Hsam); [reflexivity|].
  exists e2. split; [exact He2|].
  rewrite (Hsam (mkCall 60 100 2 125 sampler true) eq_refl).
  vm_compute. reflexivity.
Defined.

End EngineLifecycle.

(** ** Step editing ([toggleStep], [setStepNote]) and pattern selection *)

Section StepEditing.
Import Sequencer.

Lemma updateCell_comm (f g : Step → Step) t s t' s' rows :
  (∀ x, f (g x) = g (f x)) →
  updateCell f t s (updateCell g t' s' rows)
  = updateCell g t' s' (updateCell f t s rows).
Proof.
  intros Hfg. apply list_eq. intros j. unfold updateCell.
  rewrite !list_lookup_imap. destruct (rows !! j) as [row|]; [|done].
  simpl. f_equal.
  destruct (decide (j = t)), (decide (j = t')); try done.
  apply list_eq. intros k. rewrite !list_lookup_imap.
  destruct (row !! k) as [x|]; [|done]. simpl. f_equal.
  destruct (decide (k = s)), (decide (k = s')); by rewrite ?Hfg.
Qed.

Lemma updatePattern_comm (f g : Step → Step) cur t s cur' t' s' ps :
  (∀ x, f (g x) = g (f x)) →
  updatePattern f cur t s (updatePattern g cur' t' s' ps)
  = updatePattern g cur' t' s' (updatePattern f cur t s ps).
Proof.
  intros Hfg. unfold updatePattern. rewrite <- !list_fmap_compose.
  apply list_fmap_ext. intros _ p _. simpl.
  destruct (decide (id p = cur')) as [H1|H1];
    destruct (decide (id p = cur)) as [H2|H2]; simpl;
    repeat first [rewrite (decide_True (P := id p = cur')) by done
                 | rewrite (decide_False (P := id p = cur')) by done
                 | rewrite (decide_True (P := id p = cur)) by done
                 | rewrite (decide_False (P := id p = cur)) by done];
    simpl; try done.
  by rewrite updateCell_comm.
Qed.

Lemma updateCell_compose (f g : Step → Step) t s rows :
  updateCell f t s (updateCell g t s rows)
  = updateCell (fun x => f (g x)) t s rows.
Proof.
  apply list_eq. intros j. unfold updateCell.
  rewrite !list_lookup_imap. destruct (rows !! j) as [row|]; [|done].
  simpl. f_equal. destruct (decide (j = t)); [|done].
  apply list_eq. intros k. rewrite !list_lookup_imap.
  destruct (row !! k) as [x|]; [|done]. simpl. f_equal.
  by destruct (decide (k = s)).
Qed.

Lemma updatePattern_compose (f g : Step → Step) cur t s ps :
  updatePattern f cur t s (updatePattern g cur t s ps)
  = updatePattern (fun x => f (g x)) cur t s ps.
Proof.
  unfold updatePattern. rewrite <- list_fmap_compose.
  apply list_fmap_ext. intros _ p _. simpl.
  destruct (decide (id p = cur)); simpl.
  - rewrite decide_True by done. simpl. by rewrite updateCell_compose.
  - by rewrite decide_False.
Qed.

(** An edit that addresses no existing cell changes nothing. *)
Lemma updateCell_out_of_range f t s rows :
  (length rows ≤ t ∨ Forall (fun row => length row ≤ s) rows)%nat →
  updateCell f t s rows = rows.
Proof.
  intros Hout. apply list_eq. intros j. unfold updateCell.
  rewrite list_lookup_imap. destruct (rows !! j) as [row|] eqn:Hrow; [|done].
  simpl. f_equal. destruct (decide (j = t)) as [->|]; [|done].
  destruct Hout as [Hlen|Hall].
  - apply lookup_lt_Some in Hrow. lia.
  - rewrite Forall_lookup in Hall. specialize (Hall _ _ Hrow).
    apply list_eq. intros k. rewrite list_lookup_imap.
    destruct (row !! k) as [x|] eqn:Hx; [|done]. simpl. f_equal.
    destruct (decide (k = s)) as [->|]; [|done].
    apply lookup_lt_Some in Hx. lia.
Qed.

Lemma updatePattern_names f cur track step ps :
  name <$> updatePattern f cur track step ps = name <$> ps.
Proof.
  unfold updatePattern. rewrite <- list_fmap_compose.
  apply list_fmap_ext. intros _ p _. simpl. by case_decide.
Qed.

(** Looking a pattern up by the tag it carries finds that pattern when no
    two patterns share a tag. *)
Lemma find_by_id (ps : list Pattern) : ∀ n p,
  NoDup (id <$> ps) →
  ps !! n = Some p →
  List.find (fun q => bool_decide (id q = id p)) ps = Some p.
Proof.
  induction ps as [|q ps IH]; intros n p Hnd Hp; [done|].
  rewrite fmap_cons in Hnd. apply NoDup_cons in Hnd as [Hq Hnd]. simpl.
  destruct n as [|n]; simpl in Hp.
  - injection Hp as ->. by rewrite bool_decide_eq_true_2.
  - rewrite bool_decide_eq_false_2; [by eapply IH|].
    intros Heq. apply Hq. rewrite Heq.
    apply list_elem_of_fmap_2. by eapply list_elem_of_lookup_2.
Qed.

Lemma defaultPatterns_ids_NoDup : NoDup (id <$> defaultPatterns).
Proof. apply (bool_decide_unpack _). vm_compute. exact I. Qed.

Lemma defaultPatterns_id_at (n : nat) :
  (n < 255)%nat →
  (id <$> defaultPatterns) !! n = Some (hexId (Z.of_nat n + 1)).
Proof.
  intros Hn. unfold defaultPatterns.
  rewrite <- list_fmap_compose, list_lookup_fmap, lookup_seq_lt by done.
  simpl. do 2 f_equal. lia.
Qed.

Lemma updatePattern_out_of_range f cur track step (ps : list Pattern) :
  wellFormed ps = true →
  (cur ∉ (id <$> ps) ∨ (NUM_TRACKS ≤ track)%nat
   ∨ (NUM_STEPS ≤ step)%nat) →
  updatePattern f cur track step ps = ps.
Proof.
  intros [_ Hall]%wellFormed_patterns Hout. unfold updatePattern.
  rewrite <- (list_fmap_id ps) at 2. apply list_fmap_ext.
  intros j p Hp. simpl.
  destruct (decide (id p = cur)) as [Hid|]; [|done].
  rewrite Forall_lookup in Hall.
  destruct (gridOk_rows p (Hall _ _ Hp)) as [Hrows Hcols].
  destruct Hout as [Hcur | Hcell].
  - destruct Hcur. rewrite <- Hid.
    apply list_elem_of_fmap_2. by eapply list_elem_of_lookup_2.
  - rewrite updateCell_out_of_range; [by destruct p|].
    destruct Hcell as [Ht|Hs]; [left; lia | right].
    eapply Forall_impl; [exact Hcols|]. intros row ->. exact Hs.
Qed.

(** X9: [setStepNote] writes the note of the addressed cell of the current
    pattern and nothing else: every other cell of every pattern is as
    before, no cell's velocity or active flag changes, and a second write to
    the same cell overrides the first. *)
Theorem setStepNote_writes_only_the_note
    (ps : list Pattern) (cur : string) (track step : nat) (n n' : option Z) :
  (note <$> getStep (setStepNote cur track step n ps) cur track step)
  = (fun _ => n) <$> getStep ps cur track step
  ∧ setStepNote cur track step n' (setStepNote cur track step n ps)
    = setStepNote cur track step n' ps
  ∧ ∀ i t s,
      getStep (setStepNote cur track step n ps) i t s
      = (if decide (i = cur ∧ t = track ∧ s = step)
         then (fun c => mkStep n (velocity c) (instrument c) (active c))
         else (fun c => c)) <$> getStep ps i t s
      ∧ (active <$> getStep (setStepNote cur track step n ps) i t s)
        = active <$> getStep ps i t s
      ∧ (velocity <$> getStep (setStepNote cur track step n ps) i t s)
        = velocity <$> getStep ps i t s.
Proof.
  assert (∀ i t s,
            getStep (setStepNote cur track step n ps) i t s
            = (if decide (i = cur ∧ t = track ∧ s = step)
               then (fun c => mkStep n (velocity c) (instrument c) (active c))
               else (fun c => c)) <$> getStep ps i t s) as Hget
    by (intros; apply updatePattern_getStep).
  split; [|split].
  - rewrite Hget, decide_True by done.
    by destruct (getStep ps cur track step).
  - unfold setStepNote. by rewrite updatePattern_compose.
  - intros i t s. rewrite Hget. split; [done|].
    destruct (getStep ps i t s) as [c|]; [|done]. by case_decide.
Qed.

(** X10: Step edits commute: a toggle and a note write, or two toggles, on any
    two cells of any two patterns give the same bank in either order. *)
Theorem step_edits_commute
    (ps : list Pattern) (cur cur' : string) (t s t' s' : nat) (n : option Z) :
  toggleStep cur t s (setStepNote cur' t' s' n ps)
  = setStepNote cur' t' s' n (toggleStep cur t s ps)
  ∧ toggleStep cur t s (toggleStep cur' t' s' ps)
    = toggleStep cur' t' s' (toggleStep cur t s ps).
Proof.
  split; apply updatePattern_comm; by intros [].
Qed.

(** X11: Bounds: on a well-formed bank, an edit that names no pattern of the
    bank, a track index of 8 or more, or a step index of 16 or more changes
    nothing. *)
Theorem edit_outside_grid_is_noop
    (ps : list Pattern) (cur : string) (track step : nat) (n : option Z) :
  wellFormed ps = true →
  (cur ∉ (id <$> ps) ∨ (8 ≤ track)%nat ∨ (16 ≤ step)%nat) →
  toggleStep cur track step ps = ps
  ∧ setStepNote cur track step n ps = ps.
Proof.
  intros Hwf Hout. split; by apply updatePattern_out_of_range.
Qed.

Lemma edit_outside_grid_is_noop_witness :
  wellFormed defaultPatterns = true
  ∧ ("000x01" ∉ (id <$> defaultPatterns) ∨ (8 ≤ 8)%nat
     ∨ (16 ≤ 3)%nat)
  ∧ toggleStep "000x01" 8 3 defaultPatterns = defaultPatterns.
Proof.
  assert (wellFormed defaultPatterns = true) as Hwf
    by (vm_compute; reflexivity).
  assert ("000x01" ∉ (id <$> defaultPatterns) ∨ (8 ≤ 8)%nat
          ∨ (16 ≤ 3)%nat)
    as Hout by (right; left; lia).
  split; [exact Hwf|]. split; [exact Hout|].
  exact (proj1 (edit_outside_grid_is_noop defaultPatterns "000x01" 8 3 None
                  Hwf Hout)).
Defined.

(** X12: Step edits never add, remove, reorder, retag or rename patterns, and
    they keep the grid shape of every pattern. *)
Theorem edits_keep_bank_shape (ps : list Pattern) (eds : list Edit) :
  id <$> applyEdits ps eds = id <$> ps
  ∧ name <$> applyEdits ps eds = name <$> ps
  ∧ length (applyEdits ps eds) = length ps
  ∧ wellFormed (applyEdits ps eds) = wellFormed ps.
Proof.
  revert ps. induction eds as [|ed eds IH]; intros ps; [done|].
  destruct (IH (applyEdit ps ed)) as (Hid & Hname & Hlen & Hwf).
  change (applyEdits ps (ed :: eds)) with (applyEdits (applyEdit ps ed) eds).
  rewrite Hid, Hname, Hlen, Hwf.
  destruct ed; simpl; unfold toggleStep, setStepNote;
    rewrite updatePattern_ids, updatePattern_names,
      updatePattern_wellFormed;
    (split; [done|]); (split; [done|]); (split; [|done]);
    unfold updatePattern; by rewrite length_fmap.
Qed.

(** X13: Pattern selection end to end: for a Control Change value [v] in
    0..254, the tag the controller computes, [hexId (v + 1)], is the tag of
    the pattern at index [v] of the bank, and the sequencer's lookup of that
    tag returns exactly that pattern, whatever step edits were made. *)
Theorem control_change_selects_pattern (eds : list Edit) (value : Z) :
  0 ≤ value ≤ 254 →
  let bank := applyEdits defaultPatterns eds in
  ∃ p,
    bank !! Z.to_nat value = Some p
    ∧ id p = hexId (value + 1)
    ∧ activePattern bank (hexId (value + 1)) = Some p.
Proof.
  intros Hv bank.
  assert (id <$> bank = id <$> defaultPatterns) as Hids
    by apply applyEdits_ids.
  assert ((id <$> bank) !! Z.to_nat value = Some (hexId (value + 1))) as Hat.
  { rewrite Hids, defaultPatterns_id_at by lia. do 2 f_equal. lia. }
  rewrite list_lookup_fmap in Hat.
  destruct (bank !! Z.to_nat value) as [p|] eqn:Hp; [|done].
  injection Hat as Hid. exists p. split; [done|]. split; [done|].
  unfold activePattern. rewrite <- Hid.
  rewrite (find_by_id bank (Z.to_nat value) p); [done | | done].
  rewrite Hids. apply defaultPatterns_ids_NoDup.
Qed.

Lemma control_change_selects_pattern_witness :
  0 ≤ 254 ≤ 254
  ∧ ∃ p, activePattern (applyEdits defaultPatterns [Toggle "000xFF" 1 2])
           (hexId 255) = Some p
         ∧ id p = "000xFF".
Proof.
  split; [lia|].
  destruct (control_change_selects_pattern [Toggle "000xFF" 1 2] 254)
    as (p & _ & Hid & Hp); [lia|].
  exists p. split; [exact Hp | exact Hid].
Defined.

End StepEditing.

(** ** Whole sessions ([App] with its engine, controller and sequencer) *)

Section Sessions.
Import Sequencer Session.

Lemma perform_frame e c :
  AudioEngine.initialized (AudioEngine.perform e c).1
  = AudioEngine.initialized e
  ∧ AudioEngine.transport_bpm (AudioEngine.perform e c).1
    = AudioEngine.transport_bpm e
  ∧ AudioEngine.transport_started (AudioEngine.perform e c).1
    = AudioEngine.transport_started e
  ∧ (length (AudioEngine.perform e c).2 ≤ 1)%nat.
Proof.
  destruct (perform_shape e c)
    as [-> | [(_ & ? & ? & _ & ->)
             | (_ & _ & ? & ? & ? & _ & _ & _ & _ & ->)]];
    cbn [fst snd]; try destruct (AudioEngine.c_returns c); simpl; auto.
Qed.

Lemma stepCalls_pitchless d r next rows : ∀ trackIndex,
  Forall (Forall (fun s => note s = None)) rows →
  stepCalls d r next trackIndex rows = [].
Proof.
  induction rows as [|row rows IH]; intros trackIndex Hall; [done|].
  apply Forall_cons in Hall as [Hrow Hrows]. simpl.
  rewrite (IH _ Hrows), app_nil_r.
  destruct (row !! next) as [[n v k a]|] eqn:Hcell; [|done].
  rewrite Forall_lookup in Hrow. specialize (Hrow _ _ Hcell). simpl in Hrow.
  subst n. by destruct a.
Qed.

Lemma updateCell_pitchless f track step rows :
  (∀ s, note s = None → note (f s) = None) →
  Forall (Forall (fun s => note s = None)) rows →
  Forall (Forall (fun s => note s = None)) (updateCell f track step rows).
Proof.
  intros Hf Hall. unfold updateCell. rewrite Forall_lookup in Hall.
  apply Forall_lookup. intros j row'. rewrite list_lookup_imap.
  destruct (rows !! j) as [row|] eqn:Hrow; [|done]. simpl.
  intros [= <-]. specialize (Hall _ _ Hrow).
  destruct (decide (j = track)); [|done].
  rewrite Forall_lookup in Hall. apply Forall_lookup. intros k x.
  rewrite list_lookup_imap. destruct (row !! k) as [y|] eqn:Hy; [|done].
  simpl. intros [= <-]. specialize (Hall _ _ Hy). simpl in Hall.
  destruct (decide (k = step)); [by apply Hf | done].
Qed.

Lemma updatePattern_pitchless f cur track step ps :
  (∀ s, note s = None → note (f s) = None) →
  pitchless ps → pitchless (updatePattern f cur track step ps).
Proof.
  intros Hf Hall. unfold pitchless, updatePattern in *.
  apply Forall_fmap. eapply Forall_impl; [exact Hall|].
  intros p Hp. simpl. destruct (decide (id p = cur)); [|done].
  simpl. by apply updateCell_pitchless.
Qed.

Lemma defaultPatterns_pitchless : pitchless defaultPatterns.
Proof.
  unfold pitchless, defaultPatterns. apply Forall_fmap, Forall_forall.
  intros n _. unfold emptyPattern. cbn [steps].
  apply Forall_replicate, Forall_replicate. done.
Qed.

Lemma Inv_boot : Inv App.boot.
Proof.
  split.
  - reflexivity.
  - intros H. discriminate H.
  - intros H. discriminate H.
  - reflexivity.
  - intros H. discriminate H.
  - simpl. lia.
  - reflexivity.
  - unfold NUM_STEPS. simpl. lia.
  - apply defaultPatterns_wellFormed.
  - apply defaultPatterns_pitchless.
  - apply Inv_constructor.
Qed.

(** Re-running the playback effect establishes the one part of the
    invariant that depends on it. *)
Lemma Inv_render (w : App.World) :
  App.currentPattern (App.app w)
  = MidiController.currentPattern (App.midiController w) →
  (MidiController.connected (App.midiController w) = true →
   MidiController.initialized (App.midiController w) = true) →
  (MidiController.initialized (App.midiController w) = true →
   MidiController.patternCallback (App.midiController w)
   = Some App.patternCallback
   ∧ MidiController.audioEngine (App.midiController w) = true) →
  AudioEngine.transport_started (App.audioEngine w)
  = App.isPlaying (App.app w) →
  (App.isPlaying (App.app w) = true →
   AudioEngine.initialized (App.audioEngine w) = true
   ∧ (0 ≤ App.bpm (App.app w) →
      AudioEngine.transport_bpm (App.audioEngine w)
      = App.bpm (App.app w))) →
  0 ≤ AudioEngine.transport_bpm (App.audioEngine w) →
  (currentStep (App.sequencer w) < NUM_STEPS)%nat →
  wellFormed (patterns (App.sequencer w)) = true →
  pitchless (patterns (App.sequencer w)) →
  EngineOps.Inv (App.audioEngine w) →
  Inv (App.render w).
Proof.
  intros H1 H2 H3 H4 H5 H6 H7 H8 H9 H10.
  unfold App.render, playbackEffect.
  destruct (App.isPlaying (App.app w)) eqn:Hp; split; simpl; try done;
    rewrite ?Hp; try done; unfold NUM_STEPS; lia.
Qed.

Lemma Inv_start toneStart bpm e :
  EngineOps.Inv e → EngineOps.Inv (AudioEngine.start toneStart bpm e).1.
Proof.
  intros HI. exact (Inv_apply e (EngineOps.Start toneStart bpm) HI).
Qed.

Lemma Inv_setBpm bpm e :
  EngineOps.Inv e → EngineOps.Inv (AudioEngine.setBpm bpm e).1.
Proof.
  intros HI. exact (Inv_apply e (EngineOps.SetBpm bpm) HI).
Qed.

Lemma initialize_transport toneStart e :
  let e' := default e (AudioEngine.initialize toneStart e) in
  AudioEngine.transport_started e' = AudioEngine.transport_started e
  ∧ AudioEngine.transport_bpm e' = AudioEngine.transport_bpm e
  ∧ (AudioEngine.initialized e = true → e' = e).
Proof.
  destruct (AudioEngine.initialized e) eqn:Hi.
  { unfold AudioEngine.initialize. rewrite Hi. simpl. auto. }
  destruct toneStart; cycle 1.
  { unfold AudioEngine.initialize. rewrite Hi. simpl.
    split; [done|]. split; [done|]. intros H. discriminate H. }
  destruct (initialize_fresh e Hi)
    as (e' & -> & _ & _ & _ & _ & _ & Hb & Hs & _). simpl.
  split; [done|]. split; [done|]. intros H. discriminate H.
Qed.

(** The controller's [initialize] keeps the current pattern, never leaves
    the controller connected but uninitialised, and registers the callback
    and the engine in every case in which it ends up initialised. *)
Lemma midi_initialize_inv webMidi inputs m :
  let m' :=
    MidiController.initialize webMidi inputs (Some App.patternCallback) m in
  (MidiController.connected m = true →
   MidiController.initialized m = true) →
  (MidiController.initialized m = true →
   MidiController.patternCallback m = Some App.patternCallback
   ∧ MidiController.audioEngine m = true) →
  MidiController.currentPattern m' = MidiController.currentPattern m
  ∧ (MidiController.connected m' = true →
     MidiController.initialized m' = true)
  ∧ (MidiController.initialized m' = true →
     MidiController.patternCallback m' = Some App.patternCallback
     ∧ MidiController.audioEngine m' = true).
Proof.
  intros m' Hc Hr. subst m'. unfold MidiController.initialize.
  destruct (MidiController.initialized m) eqn:Hi; [auto|].
  destruct webMidi; simpl; [auto|].
  split; [done|]. split; [exact Hc|]. intros H. discriminate H.
Qed.

(** Every action keeps the invariant, never fails, and triggers a voice
    only if it is a Note On, and then at most one. *)
Lemma Inv_step (w : App.World) (a : App.Action) :
  Inv w →
  ∃ w' evs,
    App.step w a = Some (w', evs)
    ∧ Inv w'
    ∧ (length evs ≤ if isNoteOn a then 1 else 0)%nat.
Proof.
  intros HI. destruct w as [ap e m sq].
  pose proof HI as [Hsync Hconn Hreg Hstarted Hplaying Htempo Hstopped Hstep
                      Hwf Hpl Heng].
  cbn [App.app App.audioEngine App.midiController App.sequencer] in *.
  destruct a as [toneStart webMidi inputs | toneStart | | newBpm | r
                 | track step | track step | track | n vel r | n | cc value |
                 | current];
    cbn [App.step App.app App.audioEngine App.midiController App.sequencer
         isNoteOn].
  - (* Mount *)
    eexists _, _. split; [reflexivity|]. split; [|simpl; lia].
    destruct (midi_initialize_inv webMidi inputs _ Hconn Hreg)
      as (M1 & M2 & M3).
    destruct (initialize_transport toneStart e)
      as (T1 & T2 & T3).
    apply Inv_render; simpl.
    + by rewrite M1.
    + exact M2.
    + exact M3.
    + by rewrite T1.
    + intros Hp. destruct (Hplaying Hp) as [Hi Hb]. by rewrite (T3 Hi).
    + by rewrite T2.
    + done.
    + done.
    + done.
    + by apply Inv_initialize.
  - (* PlayPause *)
    destruct (App.isPlaying ap) eqn:Hp.
    + eexists _, _. split; [reflexivity|]. split; [|simpl; lia].
      apply Inv_render; simpl; try done. by apply Inv_set_transport.
    + pose proof (start_outcome toneStart (App.bpm ap) e) as [Hok Hno].
      pose proof (Inv_start toneStart (App.bpm ap) e Heng) as Heng'.
      cbv zeta in Hok, Hno.
      destruct (AudioEngine.start toneStart _ _) as [e' []] eqn:Hs;
        cbn [fst snd] in Hok, Hno, Heng'.
      * eexists _, _. split; [reflexivity|]. split; [|simpl; lia].
        destruct (Hok eq_refl) as (Hb0 & Hi' & Hb & Hst).
        apply Inv_render; simpl; try done. lia.
      * eexists _, _. split; [reflexivity|]. split; [|simpl; lia].
        destruct (Hno eq_refl) as (Hb & Hst).
        split;
          cbn [App.app App.audioEngine App.midiController App.sequencer];
          try done.
        -- by rewrite Hst, Hstarted, Hp.
        -- rewrite Hp. intros H. discriminate H.
        -- by rewrite Hb.
        -- exact (s_stopped _ HI).
  - (* Stop *)
    eexists _, _. split; [reflexivity|]. split; [|simpl; lia].
    apply Inv_render; simpl; try done. by apply Inv_set_transport.
  - (* BpmChange *)
    eexists _, _. split; [reflexivity|]. split; [|simpl; lia].
    destruct (setBpm_outcome newBpm e) as (S1 & S2 & S3 & S4).
    apply Inv_render; simpl; try done.
    + destruct (App.isPlaying ap); [by rewrite S2 | done].
    + intros Hp. rewrite Hp. rewrite S1. split; [|done]. by apply Hplaying.
    + destruct (App.isPlaying ap); [by apply S4 | done].
    + destruct (App.isPlaying ap); [|done].
      by apply Inv_setBpm.
  - (* Tick *)
    destruct (App.isPlaying ap) eqn:Hp; cycle 1.
    { eexists _, _. split; [reflexivity|]. split; [exact HI | simpl; lia]. }
    destruct (activePattern_wellFormed _ (App.currentPattern ap) Hwf)
      as (p & -> & Hin & Hp').
    rewrite (tick_calls _ _ _ _ _ Hp'). cbv zeta.
    unfold pitchless in Hpl. rewrite Forall_forall in Hpl.
    rewrite (stepCalls_pitchless _ _ _ _ _ (Hpl p Hin)).
    cbn [AudioEngine.performAll fst snd mbind option_bind].
    eexists _, _. split; [reflexivity|]. split; [|simpl; lia].
    split;
      cbn [App.app App.audioEngine App.midiController App.sequencer
           currentStep patterns]; try done.
    + by rewrite Hp.
    + intros _. by apply Hplaying.
    + rewrite Hp. intros H. discriminate H.
    + apply Nat.mod_upper_bound. discriminate.
    + unfold pitchless. by apply Forall_forall.
  - (* ClickStep *)
    eexists _, _. split; [reflexivity|]. split; [|simpl; lia].
    apply Inv_render; simpl; try done.
    + unfold toggleStep. by rewrite updatePattern_wellFormed.
    + apply updatePattern_pitchless; [|done]. by intros [].
  - (* ContextMenuStep *)
    eexists _, _. split; [reflexivity|]. split; [|simpl; lia].
    apply Inv_render; simpl; try done.
    + unfold setStepNote. by rewrite updatePattern_wellFormed.
    + apply updatePattern_pitchless; [|done]. by intros [].
  - (* SelectTrack *)
    eexists _, _. split; [reflexivity|]. split; [|simpl; lia].
    split; cbn [App.app App.audioEngine App.midiController App.sequencer
                currentStep patterns]; done.
  - (* NoteOn *)
    destruct (MidiController.connected _) eqn:Hc; cycle 1.
    { eexists _, _. split; [reflexivity|]. split; [exact HI | simpl; lia]. }
    unfold MidiController.handleNoteOn.
    destruct (MidiController.audioEngine _); simpl; cycle 1.
    { eexists _, _. split; [reflexivity|]. split; [exact HI | simpl; lia]. }
    destruct (perform_frame e
                (MidiController.noteOnCall n vel r))
      as (F1 & F2 & F3 & F4).
    pose proof (Inv_perform _ (MidiController.noteOnCall n vel r) Heng)
      as Heng'.
    destruct (AudioEngine.perform _ _) as [e' evs]. simpl in *.
    rewrite <- F3 in Hstarted. rewrite <- F1, <- F2 in Hplaying.
    rewrite <- F2 in Htempo.
    eexists _, _. split; [reflexivity|]. split; [|done].
    split; simpl; try done.
    + exact (s_connected _ HI).
    + exact (s_registered _ HI).
  - (* NoteOff *)
    eexists _, _. split; [reflexivity|]. split; [|simpl; lia].
    split; cbn [App.app App.audioEngine App.midiController App.sequencer
                currentStep patterns]; done.
  - (* ControlChange *)
    destruct (MidiController.connected _) eqn:Hc; cycle 1.
    { eexists _, _. split; [reflexivity|]. split; [exact HI | simpl; lia]. }
    destruct (Hreg (Hconn eq_refl)) as [Hcb Hae].
    unfold MidiController.handleControlChange.
    destruct (bool_decide _ && bool_decide _); cycle 1.
    { eexists _, _. split; [reflexivity|]. split; [|simpl; lia].
      apply Inv_render; simpl;
        first [done | exact (s_connected _ HI) | exact (s_registered _ HI)]. }
    destruct (bool_decide (hexId (value + 1) = _)); simpl.
    { eexists _, _. split; [reflexivity|]. split; [|simpl; lia].
      apply Inv_render; simpl;
        first [done | exact (s_connected _ HI) | exact (s_registered _ HI)]. }
    rewrite Hcb. eexists _, _. split; [reflexivity|]. split; [|simpl; lia].
    apply Inv_render; simpl;
      first [done | exact (s_connected _ HI) | exact (s_registered _ HI)].
  - (* DeviceConnected *)
    destruct (MidiController.initialized _) eqn:Hi; cycle 1.
    { eexists _, _. split; [reflexivity|]. split; [exact HI | simpl; lia]. }
    eexists _, _. split; [reflexivity|]. split; [|simpl; lia].
    unfold MidiController.onConnected.
    destruct (MidiController.connected _) eqn:Hc; simpl;
      split; simpl; try done; by rewrite ?Hi, ?Hc.
  - (* DeviceDisconnected *)
    destruct (MidiController.initialized _) eqn:Hi; cycle 1.
    { eexists _, _. split; [reflexivity|]. split; [exact HI | simpl; lia]. }
    eexists _, _. split; [reflexivity|]. split; [|simpl; lia].
    unfold MidiController.onDisconnected.
    destruct current; simpl; split; simpl; try done; by rewrite ?Hi.
Qed.

Lemma Inv_session (acts : list App.Action) : ∀ w,
  Inv w →
  ∃ w' evs,
    App.run w acts = Some (w', evs)
    ∧ Inv w'
    ∧ (length evs ≤ length (List.filter isNoteOn acts))%nat.
Proof.
  induction acts as [|a acts IH]; intros w HI.
  - exists w, []. split; [done|]. split; [done | simpl; lia].
  - destruct (Inv_step w a HI) as (w1 & evs1 & Hstep & HI1 & Hlen1).
    destruct (IH w1 HI1) as (w2 & evs2 & Hrun & HI2 & Hlen2).
    exists w2, (evs1 ++ evs2). simpl. rewrite Hstep. simpl. rewrite Hrun.
    split; [done|]. split; [done|]. rewrite length_app.
    destruct (isNoteOn a); simpl; lia.
Qed.

Lemma Inv_from_boot (acts : list App.Action) :
  ∃ w evs,
    App.run App.boot acts = Some (w, evs)
    ∧ Inv w
    ∧ (length evs ≤ length (List.filter isNoteOn acts))%nat.
Proof. apply Inv_session, Inv_boot. Qed.


(** The session the invariant is stated for: typing -5 into the BPM field
    while playing leaves the application at -5 and the transport at 120. *)
Example negative_bpm_while_playing :
  ((fun r : App.World * list AudioEngine.Event =>
      (App.isPlaying (App.app r.1), App.bpm (App.app r.1),
       AudioEngine.transport_bpm (App.audioEngine r.1),
       AudioEngine.transport_started (App.audioEngine r.1)))
     <$> App.run App.boot
           [App.Mount true true 1; App.PlayPause true; App.BpmChange (-5)])
  = Some (true, -5, 120, true)
  ∧ ((fun r : App.World * list AudioEngine.Event =>
        (App.isPlaying (App.app r.1),
         AudioEngine.initialized (App.audioEngine r.1),
         AudioEngine.transport_started (App.audioEngine r.1)))
       <$> App.run App.boot [App.BpmChange (-5); App.PlayPause true])
    = Some (false, true, false).
Proof. split; vm_compute; reflexivity. Qed.

(** X15: At the end of every session from start-up the step counter is within
    0..15, and it is 0 whenever the application is not playing. *)
Theorem session_step_counter_in_range (acts : list App.Action) :
  ∃ w evs,
    App.run App.boot acts = Some (w, evs)
    ∧ (currentStep (App.sequencer w) < 16)%nat
    ∧ (App.isPlaying (App.app w) = false →
       currentStep (App.sequencer w) = 0%nat).
Proof.
  destruct (Inv_from_boot acts) as (w & evs & Hrun & HI & _).
  exists w, evs. split; [done|].
  split; [apply (s_step _ HI) | apply (s_stopped _ HI)].
Qed.

(** X16: At the end of every session from start-up the pattern the application
    shows is the controller's current pattern, and a connected controller is
    initialised, holds the engine and has the application's callback
    registered. *)
Theorem session_pattern_in_sync (acts : list App.Action) :
  ∃ w evs,
    App.run App.boot acts = Some (w, evs)
    ∧ App.currentPattern (App.app w)
      = MidiController.getCurrentPattern (App.midiController w)
    ∧ (MidiController.connected (App.midiController w) = true →
       MidiController.isConnected (App.midiController w) = true
       ∧ MidiController.audioEngine (App.midiController w) = true
       ∧ MidiController.patternCallback (App.midiController w)
         = Some App.patternCallback).
Proof.
  destruct (Inv_from_boot acts) as (w & evs & Hrun & HI & _).
  exists w, evs. split; [done|]. split; [apply (s_sync _ HI)|].
  intros Hc. pose proof (s_connected _ HI Hc) as Hi.
  destruct (s_registered _ HI Hi) as [Hcb Hae].
  unfold MidiController.isConnected. by rewrite Hc, Hi.
Qed.

(** X17: In every session from start-up no cell of the bank ever carries a note
    (the grid only toggles cells and clears notes), so the playback clock
    never triggers a voice: the events of a session number at most its Note
    On messages. *)
Theorem session_voices_come_from_note_on (acts : list App.Action) :
  ∃ w evs,
    App.run App.boot acts = Some (w, evs)
    ∧ pitchless (patterns (App.sequencer w))
    ∧ (length evs ≤ length (List.filter isNoteOn acts))%nat.
Proof.
  destruct (Inv_from_boot acts) as (w & evs & Hrun & HI & Hlen).
  exists w, evs. split; [done|]. split; [apply (s_pitchless _ HI) | done].
Qed.

(** X18: While playing, a run of [n] ticks, whatever the backend does with the
    triggers, moves the step counter [n] places round the sixteen steps and
    changes neither the bank, the application state nor the controller;
    sixteen ticks bring the counter back to where it was. *)
Theorem ticks_advance_modulo_16 (w : App.World) (rs : list (nat → bool)) :
  wellFormed (patterns (App.sequencer w)) = true →
  App.isPlaying (App.app w) = true →
  (currentStep (App.sequencer w) < 16)%nat →
  ∃ w' evs,
    App.run w (App.Tick <$> rs) = Some (w', evs)
    ∧ currentStep (App.sequencer w')
      = ((currentStep (App.sequencer w) + length rs) `mod` 16)%nat
    ∧ patterns (App.sequencer w') = patterns (App.sequencer w)
    ∧ App.app w' = App.app w
    ∧ App.midiController w' = App.midiController w.
Proof.
  intros Hwf Hp Hlt.
  destruct (ticks_run rs w Hwf Hp Hlt) as (e' & evs & Hrun).
  eexists _, evs. split; [exact Hrun|]. done.
Qed.

Lemma ticks_advance_modulo_16_witness :
  let w :=
    App.mkWorld (App.mk true "000x01" 120) AudioEngine.ready
      MidiController.constructor (mk defaultPatterns 3 0 None) in
  wellFormed (patterns (App.sequencer w)) = true
  ∧ App.isPlaying (App.app w) = true
  ∧ (currentStep (App.sequencer w) < 16)%nat
  ∧ ∃ w' evs,
      App.run w (replicate 16 (App.Tick (fun _ => true))) = Some (w', evs)
      ∧ currentStep (App.sequencer w') = 3%nat.
Proof.
  intros w.
  assert (wellFormed (patterns (App.sequencer w)) = true) as Hwf
    by (vm_compute; reflexivity).
  assert (currentStep (App.sequencer w) < 16)%nat as Hlt by (simpl; lia).
  split; [exact Hwf|]. split; [reflexivity|]. split; [exact Hlt|].
  destruct (ticks_advance_modulo_16 w (replicate 16 (fun _ => true)) Hwf
              eq_refl Hlt)
    as (w' & evs & Hrun & Hcs & _).
  exists w', evs. split; [exact Hrun | exact Hcs].
Defined.

(** X19: Note On routing end to end.  After any session from start-up, with the
    controller connected and the engine initialised: a Note On for a note in
    36..127 makes exactly one backend call, on an FM voice of track
    [floor((note - 36) / 12)], at the note's frequency, for half a second,
    with the velocity [floor(velocity * 127) / 127] computed in doubles, which
    for the velocity [b / 127] of a MIDI byte [b] is [b / 127] again; a
    Note On for a note in 0..35 makes no call and leaves the engine as it
    was. *)
Theorem note_on_routing (acts : list App.Action) (n : Z) (vel : float)
    (r : bool) :
  ∃ w evs0,
    App.run App.boot acts = Some (w, evs0)
    ∧ (MidiController.connected (App.midiController w) = true →
       AudioEngine.initialized (App.audioEngine w) = true →
       ∃ w' evs,
         App.step w (App.NoteOn n vel r) = Some (w', evs)
         ∧ (36 ≤ n ≤ 127 →
            ∃ ep slot,
              (slot < 4)%nat
              ∧ evs
                = [AudioEngine.TriggerAttackRelease
                     (AudioEngine.FMSynth ep ((n - 36) `div` 12) slot)
                     (AudioEngine.Frequency n)
                     (500 / 1000)
                     (Js.floor (vel * 127) / 127)]
              ∧ ∀ b : nat,
                  (b < 128)%nat →
                  vel = (Js.number (Z.of_nat b) / 127)%float →
                  AudioEngine.ev_velocity <$> evs
                  = [(Js.number (Z.of_nat b) / 127)%float])
         ∧ (0 ≤ n < 36 →
            evs = [] ∧ App.audioEngine w' = App.audioEngine w)).
Proof.
  destruct (Inv_from_boot acts) as (w & evs0 & Hrun & HI & _).
  exists w, evs0. split; [done|]. intros Hc Hi.
  pose proof (s_connected _ HI Hc) as Hmi.
  destruct (s_registered _ HI Hmi) as [_ Hae].
  cbn [App.step]. rewrite Hc. unfold MidiController.handleNoteOn.
  rewrite Hae. cbn [negb].
  set (c := MidiController.noteOnCall n vel r).
  destruct (AudioEngine.perform (App.audioEngine w) c) as [e' evs] eqn:Hp.
  eexists _, _. split; [reflexivity|]. cbn [App.audioEngine]. split.
  - intros Hn. destruct (noteToTrack_from_36 n) as [Htrack Hrange]; [lia|].
    assert (MidiController.noteToTrack n = (n - 36) `div` 12) as Hdiv.
    { rewrite Htrack. apply Z.mod_small. split.
      - apply Z.div_pos; lia.
      - apply Z.div_lt_upper_bound; lia. }
    destruct (Inv_melodic_trigger (App.audioEngine w) c (s_engine _ HI) Hi)
      as (ep & cursor & _ & Hb & Hevs & _).
    + done.
    + unfold EngineOps.onTrack. subst c. simpl. lia.
    + rewrite Hp in Hevs. simpl in Hevs. rewrite Hdiv in Hevs.
      exists ep, (Z.to_nat (cursor `mod` 4)).
      split; [pose proof (Z.mod_pos_bound cursor 4); lia|].
      split; [exact Hevs|].
      intros b Hb128 ->. rewrite Hevs. cbn [fmap list_fmap
                                            AudioEngine.ev_velocity].
      by rewrite velocity_byte_round_trip.
  - intros Hn. destruct (noteToTrack_below_36 n Hn) as [_ Hneg].
    assert (AudioEngine.perform (App.audioEngine w) c
            = (App.audioEngine w, [])) as Hnone.
    { apply Inv_off_track_trigger; [apply (s_engine _ HI) | | done].
      unfold EngineOps.onTrack. subst c. simpl. lia. }
    rewrite Hnone in Hp. by injection Hp as <- <-.
Qed.

End Sessions.
